(** * pedsim_simulator: the queueing waypoint planner and the agent cluster

    A shallow embedding of
    - [src/pedsim_simulator/src/waypointplanner/queueingplanner.cpp]
      (class [QueueingWaypointPlanner]) and
    - the agent cluster element ([AgentCluster::dissolve]),
    together with the properties of the queueing state machine.

    Conventions of the embedding:
    - a C++ [double] is a primitive binary64 float, so [+], [-], [*], [sqrt]
      and the comparisons round and compare exactly as the program does;
    - a pointer is an address ([nat]) into a store of objects, [nullptr] is
      [None]; dereferencing [nullptr] is undefined behaviour in C++ and is the
      explicit outcome [Crash] here;
    - every method is a computation in a state-and-crash monad over the
      planner object, the objects it points to and the diagnostics written. *)

From Stdlib Require Import ZArith List String Bool Floats DecimalString Lia.
Import ListNotations.

Set Warnings "-inexact-float".
Set Implicit Arguments.

(** ** Vectors (Ped::Tvector) *)

(** Modelled from the spec: the vector class (libpedsim's Ped::Tvector) is
    not part of the sources at hand; the spec describes it as "2D point/vector
    arithmetic, length, polar construction". A third coordinate, which the
    planner never sets, is left out. *)
Record Tvector : Set := mkTvector { vx : float; vy : float }.

(** Modelled from the spec: an orientation. libm's [cos] and [sin] do not exist
    on primitive floats, so an angle is kept as the pair (cos, sin) of its
    radian value; the spec's example writes an orientation in the same way,
    as the unit vector (0,-1). *)
Record Tangle : Set := mkTangle { angleCos : float; angleSin : float }.

Module Tvec.
Open Scope float_scope.

(** Modelled from the spec: [operator-] of the missing vector class,
    componentwise. *)
Definition sub (a b : Tvector) : Tvector :=
  mkTvector (vx a - vx b) (vy a - vy b).

(** Modelled from the spec: [length()] of the missing vector class, the
    Euclidean length. *)
Definition length (v : Tvector) : float :=
  sqrt (vx v * vx v + vy v * vy v).

(** Modelled from the spec: [fromPolar(angle, radius)] of the missing vector
    class, the vector of that length in that direction. *)
Definition fromPolar (angle : Tangle) (radius : float) : Tvector :=
  mkTvector (radius * angleCos angle) (radius * angleSin angle).
End Tvec.

(** ** The objects the planner points to *)

Definition AgentPtr := nat.
Definition QueuePtr := nat.

(** A [Waypoint*] with its dynamic type: [dynamic_cast<WaitingQueue*>]
    succeeds on the first constructor only. *)
Inductive WaypointPtr : Set :=
| WaitingQueuePtr (q : QueuePtr)
| OtherWaypointPtr (w : nat).

(** Modelled from the spec: class Agent is not part of the sources at hand.
    The planner and the cluster use its id, its position, its type, its list
    of destinations (addWaypoint) and the forces switched off
    (disableForce). *)
Record Agent : Set := mkAgent {
  agentId : Z;
  agentPosition : Tvector;
  agentType : Z;
  destinations : list (option WaypointPtr);
  disabledForces : list string
}.

(** Modelled from the spec: class WaitingQueue is not part of the sources at
    hand. The spec gives it an "ordered sequence of enqueued agents" and the
    "head/tail geometry (anchorPosition, endPosition, orientation)". *)
Record WaitingQueue : Set := mkWaitingQueue {
  queueName : string;
  queuePosition : Tvector;       (* getPosition(): the anchor *)
  queueEndPosition : Tvector;    (* getQueueEndPosition() *)
  queueDirection : Tangle;       (* getDirection() *)
  queuedAgents : list AgentPtr
}.

Module Queue.
(** Modelled from the spec: [isEmpty()] of the missing class WaitingQueue. *)
Definition isEmpty (q : WaitingQueue) : bool :=
  match queuedAgents q with [] => true | _ :: _ => false end.

Definition withAgents (q : WaitingQueue) (l : list AgentPtr) : WaitingQueue :=
  mkWaitingQueue (queueName q) (queuePosition q) (queueEndPosition q)
                 (queueDirection q) l.

(** Modelled from the spec: "Call the queue's enqueue operation for this
    agent; it returns the agent now immediately ahead, or none if this
    agent becomes the head." The signals the real queue may emit while it
    enqueues are not modelled. *)
Definition enqueueAgent (q : WaitingQueue) (a : AgentPtr)
  : WaitingQueue * option AgentPtr :=
  (withAgents q (queuedAgents q ++ [a]),
   match rev (queuedAgents q) with [] => None | ahead :: _ => Some ahead end).
End Queue.

(** Modelled from the spec: [Agent::disableForce(name)] of the missing class
    Agent ("disableBehavior(name)" in the spec): the force is recorded as
    switched off. *)
Definition disableForce (name : string) (a : Agent) : Agent :=
  mkAgent (agentId a) (agentPosition a) (agentType a) (destinations a)
          (disabledForces a ++ [name]).

(** The store: what the pointers point to. *)
Record World : Type := mkWorld {
  agents : AgentPtr -> Agent;
  queues : QueuePtr -> WaitingQueue;
  waypointToString : nat -> string   (* toString() of the other waypoints *)
}.

Definition updAgent (w : World) (p : AgentPtr) (a : Agent) : World :=
  mkWorld (fun p' => if Nat.eqb p' p then a else agents w p')
          (queues w) (waypointToString w).

Definition updQueue (w : World) (p : QueuePtr) (q : WaitingQueue) : World :=
  mkWorld (agents w)
          (fun p' => if Nat.eqb p' p then q else queues w p')
          (waypointToString w).

(** ** The planner object *)

Inductive QueueingStatus : Set := Unknown | Approaching | Queued | MayPass.

Definition status_eqb (a b : QueueingStatus) : bool :=
  match a, b with
  | Unknown, Unknown | Approaching, Approaching
  | Queued, Queued | MayPass, MayPass => true
  | _, _ => false
  end.

(** The helper waypoint the planner owns ([new QueueingWaypoint(name, pos)]). *)
Record QueueingWaypoint : Set := mkQueueingWaypoint {
  waypointName : string;
  waypointPosition : Tvector
}.

(** A signal-slot connection whose receiver is this planner. Each of the
    three signals is only ever connected to one slot, so the sender and the
    signal identify the connection. *)
Inductive Connection : Set :=
| ConnAgentMayPass (q : QueuePtr)             (* agentMayPass(int) *)
| ConnQueueEndPositionChanged (q : QueuePtr)  (* queueEndPositionChanged(double,double) *)
| ConnPositionChanged (a : AgentPtr).         (* positionChanged(double,double) *)

Definition conn_eqb (a b : Connection) : bool :=
  match a, b with
  | ConnAgentMayPass p, ConnAgentMayPass q => Nat.eqb p q
  | ConnQueueEndPositionChanged p, ConnQueueEndPositionChanged q => Nat.eqb p q
  | ConnPositionChanged p, ConnPositionChanged q => Nat.eqb p q
  | _, _ => false
  end.

Record Planner : Set := mkPlanner {
  agent : option AgentPtr;
  waitingQueue : option QueuePtr;
  currentWaypoint : option QueueingWaypoint;
  followedAgent : option AgentPtr;
  status : QueueingStatus;
  connections : list Connection
}.

(** Diagnostics: the macro, its format string and its arguments. *)
Inductive LogLevel : Set := DebugLog | WarnLog | ErrorLog.
Inductive LogArg : Set := ArgInt (z : Z) | ArgString (s : string).
Record LogEntry : Set := mkLog {
  logLevel : LogLevel;
  logFormat : string;
  logArgs : list LogArg
}.

Record State : Type := mkState {
  planner : Planner;
  world : World;
  diagnostics : list LogEntry
}.

(** ** The monad of the methods *)

Inductive Result (A : Type) : Type :=
| Ok (a : A)
| Crash.
Arguments Crash {A}.

Definition M (A : Type) : Type := State -> Result (A * State).

Definition ret {A} (a : A) : M A := fun s => Ok (a, s).

Definition bind {A B} (m : M A) (f : A -> M B) : M B :=
  fun s => match m s with
           | Ok (a, s') => f a s'
           | Crash => Crash
           end.

Declare Scope planner_scope.
Delimit Scope planner_scope with planner.
Notation "x <- m ;; k" := (bind m (fun x => k))
  (at level 61, m at next level, right associativity) : planner_scope.
Notation "m ;; k" := (bind m (fun _ => k))
  (at level 61, right associativity) : planner_scope.
Open Scope planner_scope.

Definition this : M Planner := fun s => Ok (planner s, s).
Definition theWorld : M World := fun s => Ok (world s, s).

Definition modify (f : Planner -> Planner) : M unit :=
  fun s => Ok (tt, mkState (f (planner s)) (world s) (diagnostics s)).

Definition modifyWorld (f : World -> World) : M unit :=
  fun s => Ok (tt, mkState (planner s) (f (world s)) (diagnostics s)).

Definition writeLog (l : LogLevel) (fmt : string) (args : list LogArg) : M unit :=
  fun s => Ok (tt, mkState (planner s) (world s)
                           (diagnostics s ++ [mkLog l fmt args])).

(** [p->...]: undefined behaviour on [nullptr]. *)
Definition deref {A} (p : option A) : M A :=
  fun s => match p with Some x => Ok (x, s) | None => Crash end.

Definition getAgentObj (p : AgentPtr) : M Agent :=
  w <- theWorld ;; ret (agents w p).
Definition getQueueObj (p : QueuePtr) : M WaitingQueue :=
  w <- theWorld ;; ret (queues w p).

(** Field assignments. *)
Definition set_agent v (p : Planner) :=
  mkPlanner v (waitingQueue p) (currentWaypoint p) (followedAgent p) (status p) (connections p).
Definition set_waitingQueue v (p : Planner) :=
  mkPlanner (agent p) v (currentWaypoint p) (followedAgent p) (status p) (connections p).
Definition set_currentWaypoint v (p : Planner) :=
  mkPlanner (agent p) (waitingQueue p) v (followedAgent p) (status p) (connections p).
Definition set_followedAgent v (p : Planner) :=
  mkPlanner (agent p) (waitingQueue p) (currentWaypoint p) v (status p) (connections p).
Definition set_status v (p : Planner) :=
  mkPlanner (agent p) (waitingQueue p) (currentWaypoint p) (followedAgent p) v (connections p).
Definition set_connections v (p : Planner) :=
  mkPlanner (agent p) (waitingQueue p) (currentWaypoint p) (followedAgent p) (status p) v.

(** Qt's [QObject::connect]: one more connection (Qt keeps duplicates). *)
Definition connect (c : Connection) : M unit :=
  modify (fun p => set_connections (connections p ++ [c]) p).

(** Qt's [QObject::disconnect(sender, signal, this, slot)]: every connection
    of that sender and signal goes; with a null sender Qt refuses the call
    and nothing changes. *)
Definition disconnect {A} (sender : option A) (c : A -> Connection) : M unit :=
  match sender with
  | None => ret tt
  | Some x =>
      modify (fun p =>
        set_connections (filter (fun c' => negb (conn_eqb c' (c x))) (connections p)) p)
  end.

(** [QueueingWaypoint::setPosition] on the planner's own waypoint. *)
Definition setWaypointPosition (pos : Tvector) : M unit :=
  p <- this ;;
  wp <- deref (currentWaypoint p) ;;
  modify (set_currentWaypoint (Some (mkQueueingWaypoint (waypointName wp) pos))).


(** ** The methods of QueueingWaypointPlanner

    Each definition follows the method of the same name in
    queueingplanner.cpp, statement by statement. *)

Definition endPositionRadius : float := 2.0%float.
Definition privateSpaceDistance : float := 0.7%float.
Definition minUpdateDistance : float := 0.4%float.

(** The constructor: every pointer null, status Unknown, nothing connected. *)
Definition newPlanner : Planner :=
  mkPlanner None None None None Unknown [].

Definition initialState (w : World) : State := mkState newPlanner w [].

(** The offset [addPrivateSpace] subtracts for a queue. *)
Definition queueOffset (q : WaitingQueue) : Tvector :=
  Tvec.fromPolar (queueDirection q) privateSpaceDistance.

Definition addPrivateSpace (queueEndIn : Tvector) : M Tvector :=
  p <- this ;;
  qp <- deref (waitingQueue p) ;;
  q <- getQueueObj qp ;;
  ret (Tvec.sub queueEndIn (queueOffset q)).

Definition createWaypointName : M string :=
  p <- this ;;
  ap <- deref (agent p) ;;
  a <- getAgentObj ap ;;
  qp <- deref (waitingQueue p) ;;
  q <- getQueueObj qp ;;
  ret ("QueueHelper_A" ++ NilZero.string_of_int (Z.to_int (agentId a))
       ++ "_Q" ++ queueName q)%string.

Definition hasReachedQueueEnd : M bool :=
  p <- this ;;
  match waitingQueue p with
  | None => ret false
  | Some qp =>
      q <- getQueueObj qp ;;
      let queueEnd := queueEndPosition q in
      ap <- deref (agent p) ;;
      a <- getAgentObj ap ;;
      let diff := Tvec.sub queueEnd (agentPosition a) in
      if (Tvec.length diff <=? endPositionRadius)%float
      then ret true
      else ret false
  end.

Definition activateApproachingMode : M unit :=
  p <- this ;;
  ap <- deref (agent p) ;;
  a <- getAgentObj ap ;;
  writeLog DebugLog "Agent %1 enters Approaching Mode" [ArgInt (agentId a)] ;;
  modify (set_status Approaching) ;;
  waypointName <- createWaypointName ;;
  qp <- deref (waitingQueue p) ;;
  q <- getQueueObj qp ;;
  let destination := queueEndPosition q in
  modify (set_currentWaypoint (Some (mkQueueingWaypoint waypointName destination))).

Definition agentDisableForce (ap : AgentPtr) (name : string) : M unit :=
  modifyWorld (fun w => updAgent w ap (disableForce name (agents w ap))).

Definition activateQueueingMode : M unit :=
  p <- this ;;
  ap <- deref (agent p) ;;
  a <- getAgentObj ap ;;
  writeLog DebugLog "Agent %1 enters Queueing Mode" [ArgInt (agentId a)] ;;
  modify (set_status Queued) ;;
  waypointName <- createWaypointName ;;
  qp <- deref (waitingQueue p) ;;
  q <- getQueueObj qp ;;
  let (q', ahead) := Queue.enqueueAgent q ap in
  modifyWorld (fun w => updQueue w qp q') ;;
  modify (set_followedAgent ahead) ;;
  queueingPosition <-
    match ahead with
    | Some f =>
        fa <- getAgentObj f ;;
        pos <- addPrivateSpace (agentPosition fa) ;;
        connect (ConnPositionChanged f) ;;
        ret pos
    | None =>
        q2 <- getQueueObj qp ;;
        ret (queuePosition q2)
    end ;;
  agentDisableForce ap "Social" ;;
  agentDisableForce ap "Random" ;;
  agentDisableForce ap "GroupCoherence" ;;
  agentDisableForce ap "GroupGaze" ;;
  modify (set_currentWaypoint (Some (mkQueueingWaypoint waypointName queueingPosition))).

Definition onFollowedAgentPositionChanged (xIn yIn : float) : M unit :=
  p <- this ;;
  match currentWaypoint p with
  | None =>
      writeLog ErrorLog
        "Queued agent cannot update queueing position, because there's no waypoint set!" []
  | Some wp =>
      followedPosition <- addPrivateSpace (mkTvector xIn yIn) ;;
      let diff := Tvec.sub followedPosition (waypointPosition wp) in
      if (Tvec.length diff <? minUpdateDistance)%float
      then ret tt
      else setWaypointPosition followedPosition
  end.

Definition onFollowedAgentLeftQueue : M unit :=
  p <- this ;;
  disconnect (followedAgent p) ConnPositionChanged ;;
  qp <- deref (waitingQueue p) ;;
  q <- getQueueObj qp ;;
  let queueingPosition := queuePosition q in
  setWaypointPosition queueingPosition.

(** [(ptr != nullptr) && (id == ptr->getId())] *)
Definition hasId (ptr : option AgentPtr) (id : Z) : M bool :=
  match ptr with
  | None => ret false
  | Some ap => a <- getAgentObj ap ;; ret (Z.eqb id (agentId a))
  end.

Definition onAgentMayPassQueue (id : Z) : M unit :=
  p <- this ;;
  own <- hasId (agent p) id ;;
  if own then
    modify (set_status MayPass) ;;
    disconnect (waitingQueue p) ConnAgentMayPass ;;
    disconnect (waitingQueue p) ConnQueueEndPositionChanged
  else
    followed <- hasId (followedAgent p) id ;;
    if followed then onFollowedAgentLeftQueue else ret tt.

Definition onQueueEndPositionChanged (xIn yIn : float) : M unit :=
  p <- this ;;
  if negb (status_eqb (status p) Approaching) then ret tt
  else
    reached <- hasReachedQueueEnd ;;
    if reached then activateQueueingMode
    else
      match currentWaypoint p with
      | None => ret tt
      | Some _ =>
          let newDestination := mkTvector xIn yIn in
          qp <- deref (waitingQueue p) ;;
          q <- getQueueObj qp ;;
          newDestination' <-
            (if negb (Queue.isEmpty q)
             then addPrivateSpace newDestination
             else ret newDestination) ;;
          setWaypointPosition newDestination'
      end.

Definition reset : M unit :=
  p <- this ;;
  match followedAgent p with
  | Some _ => disconnect (followedAgent p) ConnPositionChanged
  | None => ret tt
  end ;;
  match waitingQueue p with
  | Some _ =>
      disconnect (waitingQueue p) ConnAgentMayPass ;;
      disconnect (waitingQueue p) ConnQueueEndPositionChanged
  | None => ret tt
  end ;;
  modify (set_status Unknown) ;;
  modify (set_currentWaypoint None) ;;
  modify (set_followedAgent None).

Definition getAgent : M (option AgentPtr) :=
  p <- this ;; ret (agent p).

Definition setAgent (agentIn : option AgentPtr) : M bool :=
  modify (set_agent agentIn) ;;
  ret true.

Definition setWaitingQueue (queueIn : option QueuePtr) : M unit :=
  reset ;;
  modify (set_waitingQueue queueIn) ;;
  match queueIn with
  | Some q =>
      modify (set_status Approaching) ;;
      connect (ConnAgentMayPass q) ;;
      connect (ConnQueueEndPositionChanged q)
  | None => ret tt
  end.

(** [dynamic_cast<WaitingQueue*>(waypointIn)] *)
Definition castToWaitingQueue (waypointIn : option WaypointPtr) : option QueuePtr :=
  match waypointIn with
  | Some (WaitingQueuePtr q) => Some q
  | _ => None
  end.

Definition setDestination (waypointIn : option WaypointPtr) : M unit :=
  let queue := castToWaitingQueue waypointIn in
  match queue with
  | None =>
      w <- theWorld ;;
      writeLog ErrorLog
        "Waypoint provided to QueueingWaypointPlanner isn't a waiting queue! (%1)"
        [ArgString match waypointIn with
                   | None => "null"%string
                   | Some (OtherWaypointPtr n) => waypointToString w n
                   | Some (WaitingQueuePtr q) => queueName (queues w q)
                   end]
  | Some _ => setWaitingQueue queue
  end.

Definition getWaitingQueue : M (option QueuePtr) :=
  p <- this ;; ret (waitingQueue p).

Definition getNextWaypoint : M (option QueueingWaypoint) :=
  p <- this ;;
  match agent p with
  | None =>
      writeLog ErrorLog "Cannot determine queueing waypoint without agent!" [] ;;
      ret None
  | Some _ =>
      match waitingQueue p with
      | None =>
          writeLog WarnLog "Cannot determine queueing waypoint without waiting queues!" [] ;;
          ret None
      | Some _ =>
          reached <- hasReachedQueueEnd ;;
          (if reached then activateQueueingMode else activateApproachingMode) ;;
          p' <- this ;;
          ret (currentWaypoint p')
      end
  end.

Definition hasCompletedWaypoint : M bool :=
  p <- this ;;
  match currentWaypoint p with
  | None => ret true
  | Some _ =>
      reachedWhileApproaching <-
        (if status_eqb (status p) Approaching
         then hasReachedQueueEnd
         else ret false) ;;
      if reachedWhileApproaching then ret true
      else ret (status_eqb (status p) MayPass)
  end.

Definition getCurrentWaypoint : M (option QueueingWaypoint) :=
  completed <- hasCompletedWaypoint ;;
  (if completed
   then next <- getNextWaypoint ;; modify (set_currentWaypoint next)
   else ret tt) ;;
  p <- this ;;
  ret (currentWaypoint p).

Definition hasCompletedDestination : M bool :=
  p <- this ;;
  match waitingQueue p with
  | None =>
      writeLog WarnLog "QueueingWaypointPlanner: No waiting queue set!" [] ;;
      ret true
  | Some _ => ret (status_eqb (status p) MayPass)
  end.

(** ** Signals, and the ways the planner is driven *)

(** The three signals the planner connects to, with their senders. *)
Inductive Signal : Set :=
| agentMayPass (sender : QueuePtr) (id : Z)
| queueEndPositionChanged (sender : QueuePtr) (x y : float)
| positionChanged (sender : AgentPtr) (x y : float).

Definition connectionOf (sig : Signal) : Connection :=
  match sig with
  | agentMayPass q _ => ConnAgentMayPass q
  | queueEndPositionChanged q _ _ => ConnQueueEndPositionChanged q
  | positionChanged a _ _ => ConnPositionChanged a
  end.

(** The slot each signal was connected to. *)
Definition slot (sig : Signal) : M unit :=
  match sig with
  | agentMayPass _ id => onAgentMayPassQueue id
  | queueEndPositionChanged _ x y => onQueueEndPositionChanged x y
  | positionChanged _ x y => onFollowedAgentPositionChanged x y
  end.

Definition isConnected (c : Connection) (p : Planner) : bool :=
  existsb (conn_eqb c) (connections p).

(** Qt's direct delivery: the slot runs once for each connection of the
    signal that existed when it was emitted, and a connection removed in the
    meantime is skipped. *)
Fixpoint deliver (n : nat) (sig : Signal) : M unit :=
  match n with
  | O => ret tt
  | S n' =>
      p <- this ;;
      if isConnected (connectionOf sig) p
      then slot sig ;; deliver n' sig
      else ret tt
  end.

Definition emit (sig : Signal) : M unit :=
  p <- this ;;
  deliver (List.length (filter (conn_eqb (connectionOf sig)) (connections p))) sig.

Fixpoint emitAll (sigs : list Signal) : M unit :=
  match sigs with
  | [] => ret tt
  | sig :: rest => emit sig ;; emitAll rest
  end.

(** What can happen to a planner: a call of a public method, a signal emitted
    by a queue or an agent, a slot invoked (by a connection made elsewhere),
    or the rest of the simulation changing the objects pointed to. *)
Inductive Call : Type :=
| CallReset
| CallSetAgent (agentIn : option AgentPtr)
| CallSetDestination (waypointIn : option WaypointPtr)
| CallSetWaitingQueue (queueIn : option QueuePtr)
| CallHasReachedQueueEnd
| CallGetCurrentWaypoint
| CallGetNextWaypoint
| CallHasCompletedWaypoint
| CallHasCompletedDestination
| CallEmit (sig : Signal)
| CallSlot (sig : Signal)
| WorldChanges (w' : World).

Definition discard {A} (m : M A) : State -> Result State :=
  fun s => match m s with Ok (_, s') => Ok s' | Crash => Crash end.

Definition exec (c : Call) : State -> Result State :=
  match c with
  | CallReset => discard reset
  | CallSetAgent a => discard (setAgent a)
  | CallSetDestination w => discard (setDestination w)
  | CallSetWaitingQueue q => discard (setWaitingQueue q)
  | CallHasReachedQueueEnd => discard hasReachedQueueEnd
  | CallGetCurrentWaypoint => discard getCurrentWaypoint
  | CallGetNextWaypoint => discard getNextWaypoint
  | CallHasCompletedWaypoint => discard hasCompletedWaypoint
  | CallHasCompletedDestination => discard hasCompletedDestination
  | CallEmit sig => discard (emit sig)
  | CallSlot sig => discard (slot sig)
  | WorldChanges w' => fun s => Ok (mkState (planner s) w' (diagnostics s))
  end.

Fixpoint execAll (cs : list Call) (s : State) : Result State :=
  match cs with
  | [] => Ok s
  | c :: rest => match exec c s with Ok s' => execAll rest s' | Crash => Crash end
  end.

(** The states a planner can be in: from the constructor, by any sequence of
    the above that does not crash. *)
Inductive reachable : State -> Prop :=
| reachable_init (w : World) : reachable (initialState w)
| reachable_step (c : Call) (s s' : State) :
    reachable s -> exec c s = Ok s' -> reachable s'.

(** ** A scene to run the planner in

    The spec's example: a queue anchored at (0,0) whose end is at (0,10),
    facing (0,-1); the controlled agent (id 7) stands at (0,10.5). A second
    queue has one agent (id 9, at (3,4)) waiting in it and a third agent (id 11)
    stands far from everything. *)
Definition agentA : AgentPtr := 0.
Definition agentF : AgentPtr := 1.
Definition agentB : AgentPtr := 2.
Definition queueE : QueuePtr := 0.
Definition queueN : QueuePtr := 1.

Definition exampleWorld : World :=
  mkWorld
    (fun p => match p with
              | 0 => mkAgent 7 (mkTvector 0 10.5) 0 [] []
              | 1 => mkAgent 9 (mkTvector 3 4) 0 [] []
              | _ => mkAgent 11 (mkTvector 100 100) 0 [] []
              end)
    (fun p => match p with
              | 0 => mkWaitingQueue "E" (mkTvector 0 0) (mkTvector 0 10)
                                    (mkTangle 0 (-1)) []
              | _ => mkWaitingQueue "N" (mkTvector 0 0) (mkTvector 0 10)
                                    (mkTangle 0 (-1)) [agentF]
              end)
    (fun _ => "AreaWaypoint"%string).

(** The state a sequence of calls leads to from the constructor (the initial
    state itself should the sequence crash). *)
Definition after (cs : list Call) (w : World) : State :=
  match execAll cs (initialState w) with
  | Ok s => s
  | Crash => initialState w
  end.

(** The same scene before the controlled agent has walked up to the queue. *)
Definition farWorld : World :=
  updAgent exampleWorld agentA (mkAgent 7 (mkTvector 0 50) 0 [] []).

(** ** The agent cluster (AgentCluster::dissolve) *)

Record QSizeF : Set := mkQSizeF { width : float; height : float }.

Record AgentCluster : Set := mkAgentCluster {
  clusterId : Z;
  clusterPosition : Tvector;
  count : Z;
  distribution : QSizeF;
  clusterAgentType : Z;
  shallCreateGroups : bool;
  waypoints : list (option WaypointPtr)
}.

(** Modelled from the spec: [Agent::setPosition], [Agent::setType] and
    [Agent::addWaypoint] of the missing class Agent. The spec leaves them to
    their names: the setters store their argument, addWaypoint appends to the
    agent's destinations. *)
Definition agentSetPosition (x y : float) (a : Agent) : Agent :=
  mkAgent (agentId a) (mkTvector x y) (agentType a) (destinations a) (disabledForces a).
Definition agentSetType (t : Z) (a : Agent) : Agent :=
  mkAgent (agentId a) (agentPosition a) t (destinations a) (disabledForces a).
Definition agentAddWaypoint (a : Agent) (wp : option WaypointPtr) : Agent :=
  mkAgent (agentId a) (agentPosition a) (agentType a) (destinations a ++ [wp])
          (disabledForces a).

Section Dissolve.

(** The random engine [RNG()] and a draw of
    [std::uniform_real_distribution<double>(a, b)] from it: part of the C++
    library, left open here. *)
Variable RNGState : Type.
Variable uniform_real : float -> float -> RNGState -> float * RNGState.

(** What [dissolve] works on: the heap of agents with the next address [new]
    hands out, the id counter of the Agent constructor, the agents registered
    with the scene, and the random engine. *)
Record Scene : Type := mkScene {
  heap : AgentPtr -> Agent;
  nextFree : AgentPtr;
  staticid : Z;
  sceneAgents : list AgentPtr;
  rng : RNGState
}.

Definition heapUpdate (h : AgentPtr -> Agent) (p : AgentPtr) (a : Agent)
  : AgentPtr -> Agent :=
  fun p' => if Nat.eqb p' p then a else h p'.

(** Modelled from the spec: [new Agent()]; the constructor is not part of the
    sources at hand. A fresh object at a fresh address, with the next id (the
    spec speaks of "global incrementing identifier counters"), at the origin,
    of type 0, without destinations. The counter is not bounded here: signed
    overflow would be undefined behaviour. *)
Definition newAgent (sc : Scene) : AgentPtr * Scene :=
  (nextFree sc,
   mkScene (heapUpdate (heap sc) (nextFree sc)
                       (mkAgent (staticid sc) (mkTvector 0 0) 0 [] []))
           (S (nextFree sc)) (staticid sc + 1) (sceneAgents sc) (rng sc)).

Definition onAgent (p : AgentPtr) (f : Agent -> Agent) (sc : Scene) : Scene :=
  mkScene (heapUpdate (heap sc) p (f (heap sc p)))
          (nextFree sc) (staticid sc) (sceneAgents sc) (rng sc).

(** [distribution(RNG())] *)
Definition draw (lo hi : float) (sc : Scene) : float * Scene :=
  let (x, g) := uniform_real lo hi (rng sc) in
  (x, mkScene (heap sc) (nextFree sc) (staticid sc) (sceneAgents sc) g).

(** Modelled from the spec: [SCENE.addAgent(a)]; the scene is not part of the
    sources at hand. It records the agent. *)
Definition sceneAddAgent (p : AgentPtr) (sc : Scene) : Scene :=
  mkScene (heap sc) (nextFree sc) (staticid sc) (sceneAgents sc ++ [p]) (rng sc).

(** One round of the loop of [dissolve]. *)
Definition dissolveStep (c : AgentCluster) (sc : Scene) : AgentPtr * Scene :=
  let w := width (distribution c) in
  let h := height (distribution c) in
  let (a, sc) := newAgent sc in
  let randomizedX := vx (clusterPosition c) in
  let randomizedY := vy (clusterPosition c) in
  let (randomizedX, sc) :=
    if negb (w =? 0)%float
    then let (d, sc') := draw (- w / 2)%float (w / 2)%float sc in
         ((randomizedX + d)%float, sc')
    else (randomizedX, sc) in
  let (randomizedY, sc) :=
    if negb (h =? 0)%float
    then let (d, sc') := draw (- h / 2)%float (h / 2)%float sc in
         ((randomizedY + d)%float, sc')
    else (randomizedY, sc) in
  let sc := onAgent a (agentSetPosition randomizedX randomizedY) sc in
  let sc := onAgent a (agentSetType (clusterAgentType c)) sc in
  let sc := fold_left (fun sc wp => onAgent a (fun ag => agentAddWaypoint ag wp) sc)
                      (waypoints c) sc in
  let sc := sceneAddAgent a sc in
  (a, sc).

(** [for(int i = 0; i < count; ++i)]: [todo] rounds are left. *)
Fixpoint dissolveLoop (todo : nat) (c : AgentCluster)
         (agentsOut : list AgentPtr) (sc : Scene) : list AgentPtr * Scene :=
  match todo with
  | O => (agentsOut, sc)
  | S todo' =>
      let (a, sc') := dissolveStep c sc in
      dissolveLoop todo' c (agentsOut ++ [a]) sc'
  end.

Definition dissolve (c : AgentCluster) (sc : Scene) : list AgentPtr * Scene :=
  dissolveLoop (Z.to_nat (count c)) c [] sc.

End Dissolve.

(** A random engine for running [dissolve]: a list of numbers in [0,1) still
    to be handed out, scaled to the interval asked for. *)
Definition scriptedUniform (lo hi : float) (g : list float) : float * list float :=
  match g with
  | [] => (lo, [])
  | u :: rest => ((lo + u * (hi - lo))%float, rest)
  end.

Definition exampleCluster : AgentCluster :=
  mkAgentCluster 1 (mkTvector 2 3) 3 (mkQSizeF 0 0) 1 true
                 [Some (OtherWaypointPtr 5); Some (WaitingQueuePtr queueE)].

Definition exampleScene : Scene (list float) :=
  mkScene (fun _ => mkAgent 0 (mkTvector 0 0) 0 [] []) 4 4 [0; 1; 2; 3]
          [0.25; 0.5]%float.

(** ** Well-formed planners

    What every reachable planner satisfies: a queued planner has its waypoint,
    a waypoint is only there while a queue is assigned, and a planner in
    status Unknown has none. *)
Record wellFormed (p : Planner) : Prop := mkWellFormed {
  wf_queued : status p = Queued -> currentWaypoint p <> None;
  wf_queue : currentWaypoint p <> None -> waitingQueue p <> None;
  wf_unknown : status p = Unknown -> currentWaypoint p = None
}.

Definition wellFormedb (p : Planner) : bool :=
  match currentWaypoint p with
  | None => negb (status_eqb (status p) Queued)
  | Some _ =>
      match waitingQueue p with
      | None => false
      | Some _ => negb (status_eqb (status p) Unknown)
      end
  end.

(** The test of hasReachedQueueEnd, [diff.length() <= endPositionRadius],
    for an agent and a queue. *)
Definition withinReach (w : World) (a : AgentPtr) (q : QueuePtr) : bool :=
  (Tvec.length (Tvec.sub (queueEndPosition (queues w q))
                         (agentPosition (agents w a)))
   <=? endPositionRadius)%float.
Arguments withinReach : simpl never.

(** A method preserves well-formedness. *)
Definition preserves {A} (m : M A) : Prop :=
  forall s v s', wellFormedb (planner s) = true -> m s = Ok (v, s') ->
                 wellFormedb (planner s') = true.

(** A signal sent by queue [q]. *)
Definition sentByQueue (q : QueuePtr) (sig : Signal) : Prop :=
  match sig with
  | agentMayPass q' _ => q' = q
  | queueEndPositionChanged q' _ _ => q' = q
  | positionChanged _ _ _ => False
  end.

(** A position signal sent by agent [a]. *)
Definition sentByAgent (a : AgentPtr) (sig : Signal) : Prop :=
  match sig with
  | positionChanged a' _ _ => a' = a
  | _ => False
  end.

(** ** States of the example scene *)

(** The controlled agent has been bound and sent to the empty queue. *)
Definition assignedState : State :=
  after [CallSetAgent (Some agentA); CallSetWaitingQueue (Some queueE)] exampleWorld.

(** The same for the queue in which an agent waits already, and after the
    first query for the current waypoint: queued behind that agent. *)
Definition queuedBehindF : State :=
  after [CallSetAgent (Some agentA); CallSetWaitingQueue (Some queueN);
         CallGetCurrentWaypoint] exampleWorld.

(** Still walking: the agent was far from the queue at its first query, and
    has come within reach of the queue's end since. *)
Definition arrivingState : State :=
  after [CallSetAgent (Some agentA); CallSetWaitingQueue (Some queueE);
         CallGetCurrentWaypoint; WorldChanges exampleWorld] farWorld.

(** Queued behind that agent, and then granted the permission to pass. *)
Definition mayPassState : State :=
  after [CallSetAgent (Some agentA); CallSetWaitingQueue (Some queueN);
         CallGetCurrentWaypoint; CallEmit (agentMayPass queueN 7)] exampleWorld.

(** ** Which queue a planner listens to *)

(** The queue a connection listens to, if it is a connection to a queue. *)
Definition queueOf (c : Connection) : option QueuePtr :=
  match c with
  | ConnAgentMayPass q | ConnQueueEndPositionChanged q => Some q
  | ConnPositionChanged _ => None
  end.

(** Every connection to a queue is a connection to the assigned queue. *)
Definition onlyCurrentQueue (p : Planner) : Prop :=
  forall c q, In c (connections p) -> queueOf c = Some q ->
              waitingQueue p = Some q.

(** A method keeps a property of the planner object. *)
Definition keeps (P : Planner -> Prop) {A} (m : M A) : Prop :=
  forall s v s', P (planner s) -> m s = Ok (v, s') -> P (planner s').

(** The state with one more diagnostic. *)
Definition logged (s : State) (e : LogEntry) : State :=
  mkState (planner s) (world s) (diagnostics s ++ [e]).

(** The name createWaypointName gives the helper waypoint of an agent and a
    queue. *)
Definition helperName (w : World) (a : AgentPtr) (q : QueuePtr) : string :=
  ("QueueHelper_A" ++ NilZero.string_of_int (Z.to_int (agentId (agents w a)))
   ++ "_Q" ++ queueName (queues w q))%string.

(** The diagnostic of a change of mode. *)
Definition modeLog (mode : string) (w : World) (a : AgentPtr) : LogEntry :=
  mkLog DebugLog ("Agent %1 enters " ++ mode ++ " Mode") [ArgInt (agentId (agents w a))].

(** The planner with its waypoint moved to [pos]. *)
Definition movedTo (pos : Tvector) (wp : QueueingWaypoint) (s : State) : State :=
  mkState (set_currentWaypoint (Some (mkQueueingWaypoint (waypointName wp) pos))
                               (planner s))
          (world s) (diagnostics s).

(** ** The other methods of AgentCluster *)

(** Equality of two [Waypoint*]. *)
Definition waypointPtr_eqb (a b : option WaypointPtr) : bool :=
  match a, b with
  | None, None => true
  | Some (WaitingQueuePtr p), Some (WaitingQueuePtr q) => Nat.eqb p q
  | Some (OtherWaypointPtr p), Some (OtherWaypointPtr q) => Nat.eqb p q
  | _, _ => false
  end.

(** Qt's [QPointF]. *)
Record QPointF : Set := mkQPointF { pointX : float; pointY : float }.

Module Cluster.

(** The signals a cluster emits. *)
Inductive Signal : Set :=
| positionChanged (x y : float)
| typeChanged (t : Z).

(** The constructor, with the static counter [lastID] it increments: the new
    cluster and the counter afterwards. The counter is not bounded here
    (signed overflow would be undefined behaviour), and the graphical
    representation the constructor allocates is left out. *)
Definition new (lastID : Z) (xIn yIn : float) (countIn : Z) : AgentCluster * Z :=
  let lastID := (lastID + 1)%Z in
  (mkAgentCluster lastID (mkTvector xIn yIn) countIn (mkQSizeF 0 0) 0 true [],
   lastID).

Definition set_count v (c : AgentCluster) :=
  mkAgentCluster (clusterId c) (clusterPosition c) v (distribution c)
                 (clusterAgentType c) (shallCreateGroups c) (waypoints c).
Definition set_waypoints v (c : AgentCluster) :=
  mkAgentCluster (clusterId c) (clusterPosition c) (count c) (distribution c)
                 (clusterAgentType c) (shallCreateGroups c) v.
Definition set_position v (c : AgentCluster) :=
  mkAgentCluster (clusterId c) v (count c) (distribution c)
                 (clusterAgentType c) (shallCreateGroups c) (waypoints c).
Definition set_agentType v (c : AgentCluster) :=
  mkAgentCluster (clusterId c) (clusterPosition c) (count c) (distribution c)
                 v (shallCreateGroups c) (waypoints c).
Definition set_shallCreateGroups v (c : AgentCluster) :=
  mkAgentCluster (clusterId c) (clusterPosition c) (count c) (distribution c)
                 (clusterAgentType c) v (waypoints c).
Definition set_distribution v (c : AgentCluster) :=
  mkAgentCluster (clusterId c) (clusterPosition c) (count c) v
                 (clusterAgentType c) (shallCreateGroups c) (waypoints c).

Definition getId (c : AgentCluster) : Z := clusterId c.
Definition getCount (c : AgentCluster) : Z := count c.
Definition setCount (countIn : Z) (c : AgentCluster) : AgentCluster :=
  set_count countIn c.
Definition getWaypoints (c : AgentCluster) : list (option WaypointPtr) :=
  waypoints c.

Definition addWaypoint (waypointIn : option WaypointPtr) (c : AgentCluster)
  : AgentCluster :=
  set_waypoints (waypoints c ++ [waypointIn]) c.

(** Qt's [QList::removeAll]: every entry equal to the value goes; the number
    of entries removed is returned. *)
Definition removeAll (v : option WaypointPtr) (l : list (option WaypointPtr))
  : list (option WaypointPtr) * Z :=
  (filter (fun w => negb (waypointPtr_eqb w v)) l,
   Z.of_nat (List.length (filter (fun w => waypointPtr_eqb w v) l))).

Definition removeWaypoint (waypointIn : option WaypointPtr) (c : AgentCluster)
  : bool * AgentCluster :=
  let (l, removedWaypoints) := removeAll waypointIn (waypoints c) in
  let c := set_waypoints l c in
  if (removedWaypoints >? 0)%Z then (true, c) else (false, c).

(** [dynamic_cast<Waypoint*>(queueIn)]: a waiting queue is a waypoint. *)
Definition castToWaypoint (queueIn : option QueuePtr) : option WaypointPtr :=
  match queueIn with
  | Some q => Some (WaitingQueuePtr q)
  | None => None
  end.

Definition addWaitingQueue (queueIn : option QueuePtr) (c : AgentCluster)
  : AgentCluster :=
  let waypoint := castToWaypoint queueIn in
  set_waypoints (waypoints c ++ [waypoint]) c.

Definition removeWaitingQueue (queueIn : option QueuePtr) (c : AgentCluster)
  : bool * AgentCluster :=
  let waypoint := castToWaypoint queueIn in
  let (l, removedWaitingQueues) := removeAll waypoint (waypoints c) in
  ((removedWaitingQueues >? 0)%Z, set_waypoints l c).

Definition getPosition (c : AgentCluster) : Tvector := clusterPosition c.

(** [setPosition(const Ped::Tvector&)]: the cluster afterwards and the
    signals emitted. *)
Definition setPosition (positionIn : Tvector) (c : AgentCluster)
  : AgentCluster * list Signal :=
  let c := set_position positionIn c in
  (c, [positionChanged (vx (clusterPosition c)) (vy (clusterPosition c))]).

(** [setPosition(double, double)] *)
Definition setPositionXY (px py : float) (c : AgentCluster)
  : AgentCluster * list Signal :=
  setPosition (mkTvector px py) c.

Definition setX (xIn : float) (c : AgentCluster) : AgentCluster * list Signal :=
  let c := set_position (mkTvector xIn (vy (clusterPosition c))) c in
  (c, [positionChanged (vx (clusterPosition c)) (vy (clusterPosition c))]).

Definition setY (yIn : float) (c : AgentCluster) : AgentCluster * list Signal :=
  let c := set_position (mkTvector (vx (clusterPosition c)) yIn) c in
  (c, [positionChanged (vx (clusterPosition c)) (vy (clusterPosition c))]).

Definition getType (c : AgentCluster) : Z := clusterAgentType c.

Definition setType (typeIn : Z) (c : AgentCluster) : AgentCluster * list Signal :=
  let c := set_agentType typeIn c in
  (c, [typeChanged (clusterAgentType c)]).

Definition getShallCreateGroups (c : AgentCluster) : bool := shallCreateGroups c.
Definition setShallCreateGroups (shallCreateGroupsIn : bool) (c : AgentCluster)
  : AgentCluster :=
  set_shallCreateGroups shallCreateGroupsIn c.

Definition getDistribution (c : AgentCluster) : QSizeF := distribution c.
Definition setDistribution (xIn yIn : float) (c : AgentCluster) : AgentCluster :=
  let c := set_distribution (mkQSizeF xIn (height (distribution c))) c in
  set_distribution (mkQSizeF (width (distribution c)) yIn) c.
Definition setDistributionWidth (xIn : float) (c : AgentCluster) : AgentCluster :=
  set_distribution (mkQSizeF xIn (height (distribution c))) c.
Definition setDistributionHeight (yIn : float) (c : AgentCluster) : AgentCluster :=
  set_distribution (mkQSizeF (width (distribution c)) yIn) c.

Definition getVisiblePosition (c : AgentCluster) : QPointF :=
  mkQPointF (vx (clusterPosition c)) (vy (clusterPosition c)).
Definition setVisiblePosition (positionIn : QPointF) (c : AgentCluster)
  : AgentCluster * list Signal :=
  setPositionXY (pointX positionIn) (pointY positionIn) c.

End Cluster.

(** * Properties *)

(** ** The monad, the reading methods and well-formedness *)

Lemma wellFormed_iff (p : Planner) : wellFormed p <-> wellFormedb p = true.
Proof.
  destruct p as [ag wq wp fa st cn]. unfold wellFormedb. cbn. split.
  - intros [H1 H2 H3]. cbn in *.
    destruct wp as [wp|].
    + destruct wq as [q|]; [|exfalso; apply H2; congruence].
      destruct st; cbn; try reflexivity.
      specialize (H3 eq_refl). discriminate.
    + destruct st; cbn; try reflexivity.
      exfalso. apply H1; reflexivity.
  - intros H. split; cbn; destruct wp, wq, st; cbn in *; congruence.
Qed.

Lemma bind_Ok A B (m : M A) (f : A -> M B) s v s' :
  bind m f s = Ok (v, s') ->
  exists a s1, m s = Ok (a, s1) /\ f a s1 = Ok (v, s').
Proof.
  unfold bind. destruct (m s) as [[a s1]|]; [|discriminate].
  intros H. exists a, s1. split; [reflexivity|exact H].
Qed.

Ltac unfold_prims :=
  unfold setWaypointPosition, disconnect, connect, getAgentObj, getQueueObj,
    deref, writeLog, modifyWorld, modify, theWorld, this, bind, ret in *.

Ltac break_hyp :=
  match goal with
  | H : context [match ?x with _ => _ end] |- _ => destruct x eqn:?
  end.

Lemma Ok_pair_inj A (a b : A) (s t : State) :
  Ok (a, s) = Ok (b, t) -> a = b /\ s = t.
Proof. intros H; injection H; auto. Qed.

Ltac ok_inv :=
  repeat match goal with
  | H : Ok (_, _) = Ok (_, _) |- _ =>
      apply Ok_pair_inj in H; destruct H as [? ?]; subst
  | H : Crash = Ok _ |- _ => discriminate H
  end.

Ltac crunch := cbn in *; repeat (break_hyp; cbn in *; try discriminate); ok_inv; cbn in *.

Lemma hasReachedQueueEnd_pure s b s' :
  hasReachedQueueEnd s = Ok (b, s') -> s' = s.
Proof.
  destruct s as [[ag wq wp fa st cn] w d].
  unfold hasReachedQueueEnd; unfold_prims; intros H; crunch; reflexivity.
Qed.

Lemma hasCompletedWaypoint_pure s b s' :
  hasCompletedWaypoint s = Ok (b, s') -> s' = s.
Proof.
  destruct s as [[ag wq wp fa st cn] w d].
  unfold hasCompletedWaypoint, hasReachedQueueEnd; unfold_prims; intros H; crunch; reflexivity.
Qed.

Ltac finish_wf :=
  try assumption; try reflexivity;
  unfold wellFormedb in *; cbn in *;
  repeat (break_hyp; cbn in *; try discriminate);
  try assumption; try reflexivity.

Ltac start_method :=
  let ag := fresh "ag" in let wq := fresh "wq" in let wp := fresh "wp" in
  let fa := fresh "fa" in let st := fresh "st" in let cn := fresh "cn" in
  let w := fresh "w" in let d := fresh "d" in
  intros [[ag wq wp fa st cn] w d] ? ? ? ?.

Lemma activateQueueingMode_wf : preserves activateQueueingMode.
Proof.
  start_method.
  unfold activateQueueingMode, createWaypointName, addPrivateSpace, agentDisableForce in *.
  unfold_prims. crunch; reflexivity.
Qed.

Lemma activateApproachingMode_wf : preserves activateApproachingMode.
Proof.
  start_method.
  unfold activateApproachingMode, createWaypointName in *.
  unfold_prims. crunch; reflexivity.
Qed.

Lemma reset_wf : preserves reset.
Proof.
  start_method. unfold reset in *. unfold_prims. crunch; reflexivity.
Qed.

Lemma setWaitingQueue_wf q : preserves (setWaitingQueue q).
Proof.
  start_method. unfold setWaitingQueue, reset in *. unfold_prims. crunch; reflexivity.
Qed.

Lemma setDestination_wf wp : preserves (setDestination wp).
Proof.
  intros s v s' Hwf H. unfold setDestination in H.
  destruct (castToWaitingQueue wp) eqn:E.
  - eapply setWaitingQueue_wf; eauto.
  - unfold_prims. crunch; assumption.
Qed.

Lemma setAgent_wf a : preserves (setAgent a).
Proof.
  start_method. unfold setAgent in *. unfold_prims. crunch; assumption.
Qed.

Lemma hasCompletedDestination_wf : preserves hasCompletedDestination.
Proof.
  start_method. unfold hasCompletedDestination in *. unfold_prims. crunch; assumption.
Qed.

Lemma getNextWaypoint_wf : preserves getNextWaypoint.
Proof.
  intros s v s' Hwf H. unfold getNextWaypoint in H.
  apply bind_Ok in H. destruct H as (p & s1 & Hp & H).
  unfold this in Hp. inversion Hp; subst; clear Hp.
  destruct (agent (planner s1)).
  - destruct (waitingQueue (planner s1)).
    + apply bind_Ok in H. destruct H as (b & s2 & Hb & H).
      pose proof (hasReachedQueueEnd_pure _ Hb); subst s2.
      apply bind_Ok in H. destruct H as (u & s3 & Hu & H).
      unfold_prims. inversion H; subst; clear H.
      destruct b; [eapply activateQueueingMode_wf | eapply activateApproachingMode_wf]; eauto.
    + unfold_prims. crunch; assumption.
  - unfold_prims. crunch; assumption.
Qed.

Lemma getNextWaypoint_result s v s' :
  getNextWaypoint s = Ok (v, s') ->
  v = currentWaypoint (planner s') \/ (v = None /\ planner s' = planner s).
Proof.
  intros H. unfold getNextWaypoint in H.
  apply bind_Ok in H. destruct H as (p & s1 & Hp & H).
  unfold this in Hp. inversion Hp; subst; clear Hp.
  destruct (agent (planner s1)).
  - destruct (waitingQueue (planner s1)).
    + apply bind_Ok in H. destruct H as (b & s2 & Hb & H).
      apply bind_Ok in H. destruct H as (u & s3 & Hu & H).
      unfold_prims. inversion H; subst; clear H. left; reflexivity.
    + unfold_prims. crunch; right; split; reflexivity.
  - unfold_prims. crunch; right; split; reflexivity.
Qed.

Lemma hasCompletedWaypoint_true_wf s s' :
  wellFormedb (planner s) = true ->
  hasCompletedWaypoint s = Ok (true, s') ->
  wellFormedb (set_currentWaypoint None (planner s)) = true.
Proof.
  destruct s as [[ag wq wp fa st cn] w d].
  unfold hasCompletedWaypoint, hasReachedQueueEnd. unfold_prims.
  intros Hwf H. cbn in *. destruct wp; [|assumption].
  destruct wq; [|discriminate]. destruct st; cbn in *; try discriminate.
  all: try reflexivity.
  all: crunch.
Qed.

Lemma getCurrentWaypoint_wf : preserves getCurrentWaypoint.
Proof.
  intros s v s' Hwf H. unfold getCurrentWaypoint in H.
  apply bind_Ok in H. destruct H as (b & s1 & Hb & H).
  pose proof (hasCompletedWaypoint_pure _ Hb); subst s1.
  apply bind_Ok in H. destruct H as (u & s2 & Hu & H).
  unfold this, ret, bind in H. inversion H; subst; clear H.
  destruct b.
  - apply bind_Ok in Hu. destruct Hu as (next & s3 & Hn & Hu).
    unfold modify in Hu. inversion Hu; subst; clear Hu. cbn.
    pose proof (getNextWaypoint_wf _ Hwf Hn) as Hwf3.
    destruct (getNextWaypoint_result _ Hn) as [-> | [-> Hp]].
    + destruct (planner s3); exact Hwf3.
    + rewrite Hp. eapply hasCompletedWaypoint_true_wf; eauto.
  - unfold ret in Hu. inversion Hu; subst. assumption.
Qed.

Lemma onFollowedAgentPositionChanged_wf x y : preserves (onFollowedAgentPositionChanged x y).
Proof.
  start_method. unfold onFollowedAgentPositionChanged, addPrivateSpace in *.
  unfold_prims. crunch; assumption.
Qed.

Lemma onAgentMayPassQueue_wf id : preserves (onAgentMayPassQueue id).
Proof.
  start_method. unfold onAgentMayPassQueue, onFollowedAgentLeftQueue, hasId in *.
  unfold_prims. crunch; finish_wf.
Qed.

Lemma onQueueEndPositionChanged_wf x y : preserves (onQueueEndPositionChanged x y).
Proof.
  intros s v s' Hwf H. unfold onQueueEndPositionChanged in H.
  apply bind_Ok in H. destruct H as (p & s1 & Hp & H).
  unfold this in Hp. inversion Hp; subst; clear Hp.
  destruct (negb (status_eqb (status (planner s1)) Approaching)) eqn:Est.
  - unfold ret in H. inversion H; subst. assumption.
  - apply bind_Ok in H. destruct H as (b & s2 & Hb & H).
    pose proof (hasReachedQueueEnd_pure _ Hb); subst s2.
    destruct b.
    + eapply activateQueueingMode_wf; eauto.
    + destruct s1 as [[ag wq wp fa st cn] w d].
      unfold addPrivateSpace in H. unfold_prims. crunch; assumption.
Qed.

Lemma slot_wf sig : preserves (slot sig).
Proof.
  destruct sig; cbn.
  - apply onAgentMayPassQueue_wf.
  - apply onQueueEndPositionChanged_wf.
  - apply onFollowedAgentPositionChanged_wf.
Qed.

Lemma deliver_wf n sig : preserves (deliver n sig).
Proof.
  induction n as [|n IH]; intros s v s' Hwf H; cbn in H.
  - inversion H; subst. assumption.
  - unfold bind at 1, this in H.
    destruct (isConnected (connectionOf sig) (planner s)).
    + apply bind_Ok in H. destruct H as (u & s1 & Hs & H).
      eapply IH; [|exact H]. eapply slot_wf; eauto.
    + inversion H; subst. assumption.
Qed.

Lemma emit_wf sig : preserves (emit sig).
Proof.
  intros s v s' Hwf H. unfold emit, bind at 1, this in H.
  eapply deliver_wf; eauto.
Qed.

Lemma discard_Ok A (m : M A) s s' :
  discard m s = Ok s' -> exists v, m s = Ok (v, s').
Proof.
  unfold discard. destruct (m s) as [[v s1]|]; [|discriminate].
  intros H; inversion H; subst. exists v; reflexivity.
Qed.

Lemma exec_wf c s s' :
  wellFormedb (planner s) = true -> exec c s = Ok s' ->
  wellFormedb (planner s') = true.
Proof.
  intros Hwf H. destruct c; unfold exec in H;
    try (apply discard_Ok in H; destruct H as [v H]).
  - eapply reset_wf; eauto.
  - eapply setAgent_wf; eauto.
  - eapply setDestination_wf; eauto.
  - eapply setWaitingQueue_wf; eauto.
  - apply hasReachedQueueEnd_pure in H; subst; assumption.
  - eapply getCurrentWaypoint_wf; eauto.
  - eapply getNextWaypoint_wf; eauto.
  - apply hasCompletedWaypoint_pure in H; subst; assumption.
  - eapply hasCompletedDestination_wf; eauto.
  - eapply emit_wf; eauto.
  - eapply slot_wf; eauto.
  - inversion H; subst. assumption.
Qed.

Lemma reachable_wellFormed s : reachable s -> wellFormed (planner s).
Proof.
  intros H. apply wellFormed_iff.
  induction H as [w | c s s' _ IH Hstep].
  - reflexivity.
  - eapply exec_wf; eauto.
Qed.

Lemma execAll_reachable cs : forall s s',
  reachable s -> execAll cs s = Ok s' -> reachable s'.
Proof.
  induction cs as [|c cs IH]; intros s s' Hs H; cbn in H.
  - injection H as <-. exact Hs.
  - destruct (exec c s) as [s1|] eqn:E; [|discriminate].
    eapply IH; [|exact H]. eapply reachable_step; eauto.
Qed.

Lemma after_reachable cs w : reachable (after cs w).
Proof.
  unfold after. destruct (execAll cs (initialState w)) as [s|] eqn:E.
  - eapply execAll_reachable; [|exact E]. constructor.
  - constructor.
Qed.

(** ** Pass permission for somebody else *)

(** C9: a pass-permission event whose id is neither the id of the controlled
    agent nor the id of the followed agent (also when no agent or no followed
    agent is bound) returns normally and leaves the whole state as it was:
    every field of the planner, its waypoint with its position, the objects
    pointed to and the diagnostics. *)
Theorem onAgentMayPassQueue_foreign_id (s : State) (id : Z) :
  (forall a, agent (planner s) = Some a -> agentId (agents (world s) a) <> id) ->
  (forall f, followedAgent (planner s) = Some f ->
             agentId (agents (world s) f) <> id) ->
  onAgentMayPassQueue id s = Ok (tt, s).
Proof.
  destruct s as [[ag wq wp fa st cn] w d]. cbn. intros Hown Hfollowed.
  assert (Hag : hasId ag id (mkState (mkPlanner ag wq wp fa st cn) w d)
                = Ok (false, mkState (mkPlanner ag wq wp fa st cn) w d)).
  { destruct ag as [a|]; cbn; [|reflexivity].
    unfold bind, getAgentObj, theWorld, ret, bind; cbn.
    specialize (Hown a eq_refl). apply not_eq_sym, Z.eqb_neq in Hown.
    rewrite Hown. reflexivity. }
  assert (Hfa : hasId fa id (mkState (mkPlanner ag wq wp fa st cn) w d)
                = Ok (false, mkState (mkPlanner ag wq wp fa st cn) w d)).
  { destruct fa as [f|]; cbn; [|reflexivity].
    unfold bind, getAgentObj, theWorld, ret, bind; cbn.
    specialize (Hfollowed f eq_refl). apply not_eq_sym, Z.eqb_neq in Hfollowed.
    rewrite Hfollowed. reflexivity. }
  unfold onAgentMayPassQueue, bind at 1, this. cbn.
  unfold bind at 1. rewrite Hag. unfold bind at 1. rewrite Hfa. reflexivity.
Qed.

Lemma onAgentMayPassQueue_foreign_id_witness :
  agent (planner queuedBehindF) = Some agentA /\
  followedAgent (planner queuedBehindF) = Some agentF /\
  onAgentMayPassQueue 11 queuedBehindF = Ok (tt, queuedBehindF).
Proof.
  split; [vm_compute; reflexivity|]. split; [vm_compute; reflexivity|].
  apply onAgentMayPassQueue_foreign_id.
  - intros a Ha. vm_compute in Ha. injection Ha as <-. vm_compute. discriminate.
  - intros f Hf. vm_compute in Hf. injection Hf as <-. vm_compute. discriminate.
Defined.

(** ** Destinations that are no waiting queue *)

(** C8: for every destination that is not a waiting queue, the null pointer
    included, setDestination returns normally and only writes one error
    diagnostic: the planner (queue, status, waypoint, followed agent,
    connections) and the objects pointed to are exactly as before. *)
Theorem setDestination_rejects_non_queue (s : State) (waypointIn : option WaypointPtr) :
  castToWaitingQueue waypointIn = None ->
  exists entry,
    logLevel entry = ErrorLog /\
    setDestination waypointIn s
    = Ok (tt, mkState (planner s) (world s) (diagnostics s ++ [entry])).
Proof.
  intros Hcast. unfold setDestination. rewrite Hcast.
  unfold bind, theWorld, writeLog. cbn.
  eexists. split; [|reflexivity]. reflexivity.
Qed.

Lemma setDestination_rejects_non_queue_witness :
  (exists entry,
     logLevel entry = ErrorLog /\
     setDestination (Some (OtherWaypointPtr 3)) queuedBehindF
     = Ok (tt, mkState (planner queuedBehindF) (world queuedBehindF)
                       (diagnostics queuedBehindF ++ [entry]))) /\
  (exists entry,
     logLevel entry = ErrorLog /\
     setDestination None queuedBehindF
     = Ok (tt, mkState (planner queuedBehindF) (world queuedBehindF)
                       (diagnostics queuedBehindF ++ [entry]))).
Proof.
  split.
  - apply (@setDestination_rejects_non_queue queuedBehindF (Some (OtherWaypointPtr 3))).
    vm_compute; reflexivity.
  - apply (@setDestination_rejects_non_queue queuedBehindF None).
    vm_compute; reflexivity.
Defined.

(** ** Connections and the delivery of signals *)

Lemma conn_eqb_sym a b : conn_eqb a b = conn_eqb b a.
Proof. destruct a, b; cbn; auto using Nat.eqb_sym. Qed.

Lemma not_connected_filter c g l :
  existsb (conn_eqb c) l = false ->
  existsb (conn_eqb c) (filter g l) = false.
Proof.
  induction l as [|c' l IH]; cbn; [reflexivity|].
  intros H. apply orb_false_elim in H. destruct H as [Hc Hl].
  destruct (g c'); cbn; [rewrite Hc|]; auto.
Qed.

Lemma disconnected_after_filter c l :
  existsb (conn_eqb c) (filter (fun c' => negb (conn_eqb c' c)) l) = false.
Proof.
  induction l as [|c' l IH]; cbn; [reflexivity|].
  destruct (conn_eqb c' c) eqn:E; cbn; [exact IH|].
  rewrite conn_eqb_sym, E. exact IH.
Qed.

Lemma still_connected_after_filter c d l :
  conn_eqb c d = false ->
  existsb (conn_eqb c) (filter (fun c' => negb (conn_eqb c' d)) l)
  = existsb (conn_eqb c) l.
Proof.
  intros Hcd. induction l as [|c' l IH]; cbn; [reflexivity|].
  destruct (conn_eqb c' d) eqn:E; cbn; rewrite IH; [|reflexivity].
  destruct (conn_eqb c c') eqn:E'; [|reflexivity].
  destruct c, c', d; cbn in *; try discriminate;
    apply Nat.eqb_eq in E, E'; subst;
    rewrite Nat.eqb_refl in Hcd; discriminate.
Qed.

Lemma deliver_not_connected n sig s :
  isConnected (connectionOf sig) (planner s) = false ->
  deliver n sig s = Ok (tt, s).
Proof.
  intros H. destruct n; cbn; [reflexivity|].
  unfold bind, this. rewrite H. reflexivity.
Qed.

Lemma emit_not_connected sig s :
  isConnected (connectionOf sig) (planner s) = false ->
  emit sig s = Ok (tt, s).
Proof.
  intros H. unfold emit, bind, this. apply deliver_not_connected, H.
Qed.

Lemma emitAll_not_connected sigs s :
  Forall (fun sig => isConnected (connectionOf sig) (planner s) = false) sigs ->
  emitAll sigs s = Ok (tt, s).
Proof.
  induction 1 as [|sig sigs Hsig _ IH]; cbn; [reflexivity|].
  unfold bind. rewrite (emit_not_connected _ _ Hsig). exact IH.
Qed.

(** ** The followed agent moves *)

(** C5: a position event of the followed agent with payload (x,y) that
    arrives while the planner has a waypoint: the candidate is (x,y) minus the
    private-space offset, 0.7 along the direction of the queue; when the
    distance between the candidate and the waypoint's position is strictly
    below 0.4 nothing changes, otherwise the waypoint's position becomes the
    candidate (and nothing else changes). *)
Theorem onFollowedAgentPositionChanged_hysteresis
        (s : State) (x y : float) (wp : QueueingWaypoint) :
  reachable s ->
  currentWaypoint (planner s) = Some wp ->
  exists q,
    waitingQueue (planner s) = Some q /\
    let candidate :=
      Tvec.sub (mkTvector x y)
               (Tvec.fromPolar (queueDirection (queues (world s) q)) 0.7%float) in
    onFollowedAgentPositionChanged x y s
    = Ok (tt,
          if (Tvec.length (Tvec.sub candidate (waypointPosition wp)) <? 0.4)%float
          then s
          else mkState
                 (set_currentWaypoint
                    (Some (mkQueueingWaypoint (waypointName wp) candidate))
                    (planner s))
                 (world s) (diagnostics s)).
Proof.
  intros Hreach Hwp.
  pose proof (wf_queue (reachable_wellFormed Hreach)) as Hq.
  destruct s as [[ag wq cw fa st cn] w d]. cbn in *. subst cw.
  destruct wq as [q|]; [|exfalso; apply Hq; [discriminate|reflexivity]].
  exists q. split; [reflexivity|].
  unfold onFollowedAgentPositionChanged, addPrivateSpace. unfold_prims. cbn.
  unfold queueOffset, privateSpaceDistance, minUpdateDistance.
  destruct (_ <? _)%float; reflexivity.
Qed.

Lemma onFollowedAgentPositionChanged_hysteresis_witness :
  (* a small step of the followed agent: ignored *)
  onFollowedAgentPositionChanged 3 4.25 queuedBehindF = Ok (tt, queuedBehindF) /\
  (* a larger one: the waypoint follows *)
  onFollowedAgentPositionChanged 3 5 queuedBehindF
  = Ok (tt, mkState
              (set_currentWaypoint
                 (Some (mkQueueingWaypoint "QueueHelper_A7_QN"
                          (mkTvector 3 (5 - 0.7 * -1)%float)))
                 (planner queuedBehindF))
              (world queuedBehindF) (diagnostics queuedBehindF)).
Proof.
  pose (wp := mkQueueingWaypoint "QueueHelper_A7_QN" (mkTvector 3 (4 - 0.7 * -1)%float)).
  assert (Hwp : currentWaypoint (planner queuedBehindF) = Some wp)
    by (vm_compute; reflexivity).
  split.
  - destruct (@onFollowedAgentPositionChanged_hysteresis queuedBehindF 3 4.25 wp
                (after_reachable _ _) Hwp) as (q & Hq & H).
    vm_compute in Hq. injection Hq as <-.
    rewrite H. vm_compute. reflexivity.
  - destruct (@onFollowedAgentPositionChanged_hysteresis queuedBehindF 3 5 wp
                (after_reachable _ _) Hwp) as (q & Hq & H).
    vm_compute in Hq. injection Hq as <-.
    rewrite H. vm_compute. reflexivity.
Defined.

(** ** The followed agent leaves the queue *)

(** C6: in status Queued with a followed agent, a pass-permission event that
    carries the id of the followed agent and not the id of the controlled
    agent moves the waypoint to the position of the queue (its anchor); no
    new agent to follow is looked for (the followed agent, the status, the
    queue and the objects pointed to stay as they were), the connection to
    the position signal of the agent that left is gone, and no position
    signal that agent emits afterwards has any effect. *)
Theorem onAgentMayPassQueue_followed_agent_left
        (s : State) (f : AgentPtr) (id : Z) :
  reachable s ->
  status (planner s) = Queued ->
  followedAgent (planner s) = Some f ->
  agentId (agents (world s) f) = id ->
  (forall a, agent (planner s) = Some a -> agentId (agents (world s) a) <> id) ->
  exists q wp,
    waitingQueue (planner s) = Some q /\
    currentWaypoint (planner s) = Some wp /\
    let s' :=
      mkState
        (mkPlanner (agent (planner s)) (Some q)
           (Some (mkQueueingWaypoint (waypointName wp)
                                     (queuePosition (queues (world s) q))))
           (Some f) Queued
           (filter (fun c => negb (conn_eqb c (ConnPositionChanged f)))
                   (connections (planner s))))
        (world s) (diagnostics s) in
    onAgentMayPassQueue id s = Ok (tt, s') /\
    isConnected (ConnPositionChanged f) (planner s') = false /\
    forall sigs, Forall (sentByAgent f) sigs -> emitAll sigs s' = Ok (tt, s').
Proof.
  intros Hreach Hst Hfa Hid Hown.
  pose proof (reachable_wellFormed Hreach) as [Hq1 Hq2 _].
  destruct s as [[ag wq cw fa st cn] w d]. cbn in *. subst st fa.
  destruct cw as [wp|]; [|exfalso; apply Hq1; reflexivity].
  destruct wq as [q|]; [|exfalso; apply Hq2; [discriminate|reflexivity]].
  exists q, wp. split; [reflexivity|]. split; [reflexivity|].
  assert (Hdis : existsb (conn_eqb (ConnPositionChanged f))
                   (filter (fun c => negb (conn_eqb c (ConnPositionChanged f))) cn)
                 = false) by apply disconnected_after_filter.
  split; [|split].
  - unfold onAgentMayPassQueue, onFollowedAgentLeftQueue, hasId. unfold_prims. cbn.
    assert (Hag : match ag with
                  | Some ap => (id =? agentId (agents w ap))%Z
                  | None => false
                  end = false).
    { destruct ag as [a|]; [|reflexivity].
      apply Z.eqb_neq, not_eq_sym, Hown. reflexivity. }
    destruct ag as [a|]; cbn; [rewrite Hag|]; cbn;
      rewrite <- Hid, Z.eqb_refl; reflexivity.
  - exact Hdis.
  - intros sigs Hsigs. apply emitAll_not_connected.
    eapply Forall_impl; [|exact Hsigs].
    intros [q' i|q' x y|a x y] Hs; cbn in Hs; try contradiction.
    subst a. exact Hdis.
Qed.

Lemma onAgentMayPassQueue_followed_agent_left_witness :
  exists s',
    onAgentMayPassQueue 9 queuedBehindF = Ok (tt, s') /\
    currentWaypoint (planner s')
    = Some (mkQueueingWaypoint "QueueHelper_A7_QN" (mkTvector 0 0)) /\
    emit (positionChanged agentF 50 50) s' = Ok (tt, s').
Proof.
  destruct (@onAgentMayPassQueue_followed_agent_left queuedBehindF agentF 9)
    as (q & wp & Hq & Hwp & Hrun & _ & Hstale).
  - apply after_reachable.
  - vm_compute; reflexivity.
  - vm_compute; reflexivity.
  - vm_compute; reflexivity.
  - intros a Ha. vm_compute in Ha. injection Ha as <-. vm_compute. discriminate.
  - vm_compute in Hq. injection Hq as <-.
    vm_compute in Hwp. injection Hwp as <-.
    eexists. split; [exact Hrun|]. split; [vm_compute; reflexivity|].
    assert (Hsent : Forall (sentByAgent agentF) [positionChanged agentF 50 50])
      by (repeat constructor).
    specialize (Hstale _ Hsent).
    cbn [emitAll] in Hstale. unfold bind at 1 in Hstale.
    destruct (emit _ _) as [[[] s1]|]; [|discriminate].
    unfold ret in Hstale. exact Hstale.
Defined.

(** ** The permission to pass *)

(** C2, as the code has it: a pass-permission event with the id of the
    controlled agent sets the status to MayPass, hasCompletedDestination then
    returns true, the waypoint is left as it is, and the planner is
    disconnected from both signals of the assigned queue (neither connection
    is left), so that no event of that queue reaches the planner any more.
    The connection to the position signal of a followed agent is left as it
    was. *)
Theorem onAgentMayPassQueue_own_id (s : State) (a : AgentPtr) (id : Z) :
  agent (planner s) = Some a ->
  agentId (agents (world s) a) = id ->
  exists s',
    onAgentMayPassQueue id s = Ok (tt, s') /\
    status (planner s') = MayPass /\
    (exists s'', hasCompletedDestination s' = Ok (true, s'')) /\
    currentWaypoint (planner s') = currentWaypoint (planner s) /\
    (forall f, isConnected (ConnPositionChanged f) (planner s')
               = isConnected (ConnPositionChanged f) (planner s)) /\
    forall q,
      waitingQueue (planner s) = Some q ->
      isConnected (ConnAgentMayPass q) (planner s') = false /\
      isConnected (ConnQueueEndPositionChanged q) (planner s') = false /\
      forall sigs,
        Forall (sentByQueue q) sigs ->
        emitAll sigs s' = Ok (tt, s').
Proof.
  destruct s as [[ag wq cw fa st cn] w d]. cbn. intros -> Hid.
  unfold onAgentMayPassQueue, hasId. unfold_prims. cbn.
  rewrite <- Hid, Z.eqb_refl.
  destruct wq as [q|]; cbn.
  - eexists. split; [reflexivity|]. cbn. split; [reflexivity|].
    split; [eexists; reflexivity|]. split; [reflexivity|].
    split.
    { intros f. unfold isConnected. cbn.
      rewrite !still_connected_after_filter; reflexivity. }
    intros q' Hq. injection Hq as <-.
    assert (Hpass : isConnected (ConnAgentMayPass q)
                      (mkPlanner (Some a) (Some q) cw fa MayPass
                         (filter (fun c => negb (conn_eqb c (ConnQueueEndPositionChanged q)))
                            (filter (fun c => negb (conn_eqb c (ConnAgentMayPass q))) cn)))
                    = false).
    { unfold isConnected; cbn.
      apply not_connected_filter, disconnected_after_filter. }
    assert (Hend : isConnected (ConnQueueEndPositionChanged q)
                     (mkPlanner (Some a) (Some q) cw fa MayPass
                        (filter (fun c => negb (conn_eqb c (ConnQueueEndPositionChanged q)))
                           (filter (fun c => negb (conn_eqb c (ConnAgentMayPass q))) cn)))
                   = false).
    { unfold isConnected; cbn. apply disconnected_after_filter. }
    split; [exact Hpass|]. split; [exact Hend|].
    intros sigs Hsigs.
    apply emitAll_not_connected.
    eapply Forall_impl; [|exact Hsigs].
    intros [q' i|q' x y|a' x y] Hs; cbn in Hs; try contradiction; subst q'.
    + exact Hpass.
    + exact Hend.
  - eexists. split; [reflexivity|]. cbn. split; [reflexivity|].
    split; [eexists; reflexivity|]. split; [reflexivity|].
    split; [reflexivity|].
    intros q' Hq. discriminate.
Qed.

Lemma onAgentMayPassQueue_own_id_witness :
  isConnected (ConnAgentMayPass queueN) (planner queuedBehindF) = true /\
  isConnected (ConnQueueEndPositionChanged queueN) (planner queuedBehindF) = true /\
  onAgentMayPassQueue 7 queuedBehindF = Ok (tt, mayPassState) /\
  status (planner mayPassState) = MayPass /\
  isConnected (ConnAgentMayPass queueN) (planner mayPassState) = false /\
  isConnected (ConnQueueEndPositionChanged queueN) (planner mayPassState) = false /\
  emitAll [queueEndPositionChanged queueN 1 1; agentMayPass queueN 9] mayPassState
  = Ok (tt, mayPassState).
Proof.
  assert (Hagent : agent (planner queuedBehindF) = Some agentA)
    by (vm_compute; reflexivity).
  assert (Hid : agentId (agents (world queuedBehindF) agentA) = 7%Z)
    by (vm_compute; reflexivity).
  assert (Hqueue : waitingQueue (planner queuedBehindF) = Some queueN)
    by (vm_compute; reflexivity).
  destruct (onAgentMayPassQueue_own_id queuedBehindF Hagent Hid)
    as (s' & Hrun & Hst & _ & _ & _ & Hcut).
  destruct (Hcut queueN Hqueue) as (Hpass & Hend & Hquiet).
  assert (Hs' : s' = mayPassState).
  { assert (H : onAgentMayPassQueue 7 queuedBehindF = Ok (tt, mayPassState))
      by (vm_compute; reflexivity).
    rewrite H in Hrun. apply Ok_pair_inj in Hrun. symmetry. apply Hrun. }
  subst s'.
  split; [vm_compute; reflexivity|]. split; [vm_compute; reflexivity|].
  split; [exact Hrun|]. split; [exact Hst|].
  split; [exact Hpass|]. split; [exact Hend|].
  apply Hquiet. repeat constructor.
Defined.

(** C2, as claimed, fails: after the permission to pass, the position signal of
    the agent that was followed still moves the waypoint. *)
Lemma stale_followed_agent_moves_waypoint_after_pass :
  agentId (agents (world queuedBehindF) agentA) = 7%Z /\
  exec (CallEmit (agentMayPass queueN 7)) queuedBehindF = Ok mayPassState /\
  status (planner mayPassState) = MayPass /\
  exists s',
    emit (positionChanged agentF 50 50) mayPassState = Ok (tt, s') /\
    currentWaypoint (planner s') <> currentWaypoint (planner mayPassState).
Proof.
  split; [vm_compute; reflexivity|]. split; [vm_compute; reflexivity|].
  split; [vm_compute; reflexivity|].
  eexists. split; [vm_compute; reflexivity|].
  intros H.
  apply (f_equal (fun o => match o with
                           | Some wp => (vx (waypointPosition wp) <? 10)%float
                           | None => false
                           end)) in H.
  vm_compute in H. discriminate.
Qed.

(** ** Assigning a queue *)

(** C3, as the code has it: right after setWaitingQueue with a queue the
    status is Approaching, the queue is recorded, and there is no waypoint
    yet. The waypoint is made by the next query for the current waypoint:
    with an agent bound that has not reached the queue's end and the queue
    empty, the status stays Approaching and the waypoint is at the queue's
    end position. *)
Theorem setWaitingQueue_approaching_without_waypoint (s : State) (q : QueuePtr) :
  exists s',
    setWaitingQueue (Some q) s = Ok (tt, s') /\
    status (planner s') = Approaching /\
    waitingQueue (planner s') = Some q /\
    currentWaypoint (planner s') = None /\
    followedAgent (planner s') = None /\
    world s' = world s /\
    forall a,
      agent (planner s) = Some a ->
      hasReachedQueueEnd s' = Ok (false, s') ->
      Queue.isEmpty (queues (world s) q) = true ->
      exists wp s'',
        getCurrentWaypoint s' = Ok (Some wp, s'') /\
        status (planner s'') = Approaching /\
        waypointPosition wp = queueEndPosition (queues (world s) q).
Proof.
  destruct s as [[ag wq cw fa st cn] w d].
  destruct fa as [f|], wq as [q0|].
  all: eexists; split;
    [unfold setWaitingQueue, reset; unfold_prims; cbn; reflexivity|].
  all: cbn; repeat (split; [reflexivity|]).
  all: intros a -> Hfar _.
  all: unfold getCurrentWaypoint, hasCompletedWaypoint, getNextWaypoint,
         hasReachedQueueEnd, activateApproachingMode, createWaypointName in *;
       unfold_prims; cbn in *.
  all: destruct (_ <=? _)%float;
    [apply Ok_pair_inj in Hfar; destruct Hfar; discriminate|]; cbn.
  all: eexists; eexists; split; [reflexivity|split; reflexivity].
Qed.

Lemma setWaitingQueue_approaching_without_waypoint_witness :
  exists s',
    setWaitingQueue (Some queueE) (after [CallSetAgent (Some agentA)] farWorld)
    = Ok (tt, s') /\
    currentWaypoint (planner s') = None /\
    exists wp s'',
      getCurrentWaypoint s' = Ok (Some wp, s'') /\
      status (planner s'') = Approaching /\
      waypointPosition wp = mkTvector 0 10.
Proof.
  destruct (setWaitingQueue_approaching_without_waypoint
              (after [CallSetAgent (Some agentA)] farWorld) queueE)
    as (s' & Hrun & _ & _ & Hwp & _ & _ & Hnext).
  exists s'. split; [exact Hrun|]. split; [exact Hwp|].
  assert (Hs' : Ok (tt, s')
                = Ok (tt, after [CallSetAgent (Some agentA);
                                 CallSetWaitingQueue (Some queueE)] farWorld)).
  { rewrite <- Hrun. vm_compute. reflexivity. }
  apply Ok_pair_inj in Hs'. destruct Hs' as [_ Hs'].
  destruct (Hnext agentA) as (wp & s'' & Hq & Hst & Hpos).
  - vm_compute; reflexivity.
  - rewrite Hs'. vm_compute; reflexivity.
  - vm_compute; reflexivity.
  - exists wp, s''. split; [exact Hq|]. split; [exact Hst|].
    rewrite Hpos. vm_compute; reflexivity.
Defined.

(** C3, as claimed, fails: right after a queue is assigned there is no
    waypoint at all. *)
Lemma no_waypoint_right_after_setWaitingQueue :
  exists s',
    setWaitingQueue (Some queueE) (initialState exampleWorld) = Ok (tt, s') /\
    status (planner s') = Approaching /\
    currentWaypoint (planner s') = None.
Proof.
  eexists. split; [vm_compute; reflexivity|]. split; reflexivity.
Qed.

(** ** The waypoint of a queued planner *)

(** C7, as the code has it: in every state a planner can reach, a planner in
    status Queued has a waypoint. *)
Theorem queued_planner_has_waypoint (s : State) :
  reachable s ->
  status (planner s) = Queued ->
  exists wp, currentWaypoint (planner s) = Some wp.
Proof.
  intros Hreach Hst.
  pose proof (wf_queued (reachable_wellFormed Hreach) Hst) as H.
  destruct (currentWaypoint (planner s)) as [wp|]; [|contradiction].
  exists wp. reflexivity.
Qed.

Lemma queued_planner_has_waypoint_witness :
  exists wp, currentWaypoint (planner queuedBehindF) = Some wp.
Proof.
  apply queued_planner_has_waypoint.
  - apply after_reachable.
  - vm_compute; reflexivity.
Defined.

(** C7, as claimed, fails: the state right after a queue was assigned is
    reachable, its status is Approaching, and it has no waypoint. *)
Lemma approaching_planner_without_waypoint :
  reachable assignedState /\
  status (planner assignedState) = Approaching /\
  currentWaypoint (planner assignedState) = None.
Proof.
  split; [apply after_reachable|]. split; vm_compute; reflexivity.
Qed.

(** ** Entering the queue *)

Lemma connected_after_connect c l : existsb (conn_eqb c) (l ++ [c]) = true.
Proof.
  rewrite existsb_app. cbn.
  destruct c; cbn; rewrite Nat.eqb_refl; apply orb_true_r.
Qed.

Lemma bind_run A B (m : M A) (f : A -> M B) s a s1 :
  m s = Ok (a, s1) -> bind m f s = f a s1.
Proof. intros H. unfold bind. rewrite H. reflexivity. Qed.
Arguments bind_run {A B m} f {s a s1} _.

(** What activateQueueingMode does for a planner with an agent and a queue. *)
Lemma activateQueueingMode_run (s : State) (a : AgentPtr) (q : QueuePtr) :
  agent (planner s) = Some a ->
  waitingQueue (planner s) = Some q ->
  let ahead := snd (Queue.enqueueAgent (queues (world s) q) a) in
  exists name s',
    activateQueueingMode s = Ok (tt, s') /\
    status (planner s') = Queued /\
    queues (world s') q = fst (Queue.enqueueAgent (queues (world s) q) a) /\
    followedAgent (planner s') = ahead /\
    currentWaypoint (planner s')
    = Some (mkQueueingWaypoint name
              match ahead with
              | Some f =>
                  Tvec.sub (agentPosition (agents (world s) f))
                           (Tvec.fromPolar
                              (queueDirection (queues (world s) q)) 0.7%float)
              | None => queuePosition (queues (world s) q)
              end) /\
    (forall f, ahead = Some f ->
               isConnected (ConnPositionChanged f) (planner s') = true) /\
    forall force,
      In force ["Social"; "Random"; "GroupCoherence"; "GroupGaze"]%string ->
      In force (disabledForces (agents (world s') a)).
Proof.
  destruct s as [[ag wq cw fa st cn] w d]. cbn. intros -> ->.
  unfold Queue.enqueueAgent. cbn.
  destruct (rev (queuedAgents (queues w q))) as [|f l] eqn:Erev.
  - eexists. eexists. split; [reflexivity|].
    cbn. rewrite !Nat.eqb_refl. cbn.
    repeat (split; [reflexivity|]). split; [discriminate|].
    intros force Hin. rewrite !in_app_iff. cbn in *. tauto.
  - eexists. eexists. split; [reflexivity|].
    cbn. rewrite !Nat.eqb_refl. cbn.
    repeat (split; [reflexivity|]).
    split.
    { intros f' Hf'. injection Hf' as <-. apply connected_after_connect. }
    intros force Hin. rewrite !in_app_iff. cbn in *. tauto.
Qed.

(** C4: activateQueueingMode sets the status to Queued and enqueues the agent.
    When the queue returns an agent ahead, that agent becomes the followed
    agent, its position signal is connected, and the new waypoint is at its
    position minus the private-space offset (0.7 along the direction of the
    queue); otherwise the new waypoint is at the position of the queue (its
    anchor). The forces Social, Random, GroupCoherence and GroupGaze of the
    agent are disabled. In the example of the spec (anchor (0,0), end (0,10),
    agent at (0,10.5), nobody queued) the first query yields a waypoint at
    (0,0). *)
Theorem activateQueueingMode_queues_the_agent :
  (forall (s : State) (a : AgentPtr) (q : QueuePtr),
      agent (planner s) = Some a ->
      waitingQueue (planner s) = Some q ->
      let ahead := snd (Queue.enqueueAgent (queues (world s) q) a) in
      exists name s',
        activateQueueingMode s = Ok (tt, s') /\
        status (planner s') = Queued /\
        queues (world s') q = fst (Queue.enqueueAgent (queues (world s) q) a) /\
        followedAgent (planner s') = ahead /\
        currentWaypoint (planner s')
        = Some (mkQueueingWaypoint name
                  match ahead with
                  | Some f =>
                      Tvec.sub (agentPosition (agents (world s) f))
                               (Tvec.fromPolar
                                  (queueDirection (queues (world s) q)) 0.7%float)
                  | None => queuePosition (queues (world s) q)
                  end) /\
        (forall f, ahead = Some f ->
                   isConnected (ConnPositionChanged f) (planner s') = true) /\
        forall force,
          In force ["Social"; "Random"; "GroupCoherence"; "GroupGaze"]%string ->
          In force (disabledForces (agents (world s') a)))
  /\
  (queuePosition (queues exampleWorld queueE) = mkTvector 0 0 /\
   queueEndPosition (queues exampleWorld queueE) = mkTvector 0 10 /\
   queuedAgents (queues exampleWorld queueE) = [] /\
   agentPosition (agents exampleWorld agentA) = mkTvector 0 10.5 /\
   exists name s',
     execAll [CallSetAgent (Some agentA); CallSetWaitingQueue (Some queueE)]
             (initialState exampleWorld) = Ok assignedState /\
     getCurrentWaypoint assignedState
     = Ok (Some (mkQueueingWaypoint name (mkTvector 0 0)), s') /\
     status (planner s') = Queued).
Proof.
  split.
  - exact activateQueueingMode_run.
  - repeat (split; [vm_compute; reflexivity|]).
    eexists. eexists. split; [vm_compute; reflexivity|].
    split; vm_compute; reflexivity.
Qed.

Lemma activateQueueingMode_queues_the_agent_witness :
  exists name s',
    activateQueueingMode
      (after [CallSetAgent (Some agentA); CallSetWaitingQueue (Some queueN)]
             exampleWorld)
    = Ok (tt, s') /\
    status (planner s') = Queued /\
    followedAgent (planner s') = Some agentF /\
    currentWaypoint (planner s')
    = Some (mkQueueingWaypoint name (mkTvector 3 (4 - 0.7 * -1)%float)).
Proof.
  destruct activateQueueingMode_queues_the_agent as [Hgeneral _].
  destruct (Hgeneral
              (after [CallSetAgent (Some agentA); CallSetWaitingQueue (Some queueN)]
                     exampleWorld) agentA queueN)
    as (name & s' & Hrun & Hst & _ & Hfa & Hwp & _).
  - vm_compute; reflexivity.
  - vm_compute; reflexivity.
  - exists name, s'. split; [exact Hrun|]. split; [exact Hst|].
    split.
    + rewrite Hfa. vm_compute; reflexivity.
    + rewrite Hwp. vm_compute; reflexivity.
Defined.

(** ** Reaching the end of the queue *)

Lemma hasReachedQueueEnd_run (s : State) (a : AgentPtr) (q : QueuePtr) :
  agent (planner s) = Some a ->
  waitingQueue (planner s) = Some q ->
  hasReachedQueueEnd s = Ok (withinReach (world s) a q, s).
Proof.
  destruct s as [[ag wq cw fa st cn] w d]. cbn. intros -> ->.
  unfold hasReachedQueueEnd, withinReach. unfold_prims. cbn.
  destruct (_ <=? _)%float; reflexivity.
Qed.

Lemma activateQueueingMode_frame s v s' :
  activateQueueingMode s = Ok (v, s') ->
  agent (planner s') = agent (planner s) /\
  waitingQueue (planner s') = waitingQueue (planner s).
Proof.
  destruct s as [[ag wq cw fa st cn] w d].
  unfold activateQueueingMode, createWaypointName, addPrivateSpace,
    agentDisableForce. unfold_prims.
  intros H. crunch; split; reflexivity.
Qed.

Lemma hasCompletedWaypoint_run (s : State) (a : AgentPtr) (q : QueuePtr) :
  agent (planner s) = Some a ->
  waitingQueue (planner s) = Some q ->
  hasCompletedWaypoint s
  = Ok (match currentWaypoint (planner s) with
        | None => true
        | Some _ =>
            (status_eqb (status (planner s)) Approaching
             && withinReach (world s) a q)
            || status_eqb (status (planner s)) MayPass
        end, s).
Proof.
  intros Hag Hwq. unfold hasCompletedWaypoint.
  unfold bind at 1, this.
  destruct (currentWaypoint (planner s)); [|reflexivity].
  destruct (status_eqb (status (planner s)) Approaching); cbn.
  - rewrite (bind_run _ (hasReachedQueueEnd_run s Hag Hwq)).
    destruct (withinReach (world s) a q); reflexivity.
  - reflexivity.
Qed.

Lemma getCurrentWaypoint_not_completed (s : State) :
  hasCompletedWaypoint s = Ok (false, s) ->
  getCurrentWaypoint s = Ok (currentWaypoint (planner s), s).
Proof.
  intros H. unfold getCurrentWaypoint. rewrite (bind_run _ H). reflexivity.
Qed.

Lemma getCurrentWaypoint_completed (s s' : State) :
  hasCompletedWaypoint s = Ok (true, s) ->
  getNextWaypoint s = Ok (currentWaypoint (planner s'), s') ->
  getCurrentWaypoint s = Ok (currentWaypoint (planner s'), s').
Proof.
  intros Hc Hn. unfold getCurrentWaypoint. rewrite (bind_run _ Hc).
  cbv beta iota. rewrite (bind_run _ (bind_run _ Hn)).
  destruct s' as [[ag wq cw fa st cn] w d]. reflexivity.
Qed.

Lemma getNextWaypoint_within_reach (s s' : State) (a : AgentPtr) (q : QueuePtr) :
  agent (planner s) = Some a ->
  waitingQueue (planner s) = Some q ->
  withinReach (world s) a q = true ->
  activateQueueingMode s = Ok (tt, s') ->
  getNextWaypoint s = Ok (currentWaypoint (planner s'), s').
Proof.
  intros Hag Hwq Hreach Hact. unfold getNextWaypoint.
  unfold bind at 1, this. rewrite Hag, Hwq.
  rewrite (bind_run _ (hasReachedQueueEnd_run s Hag Hwq)), Hreach.
  rewrite (bind_run _ Hact). reflexivity.
Qed.

(** C1, as the code has it: for a reachable planner with an agent and a queue
    whose agent is within 2.0 of the queue's end, hasCompletedWaypoint (a
    const method) changes nothing: it only reports completion (unless the
    planner is queued already). The query for the current waypoint is what
    makes the transition: it returns a waypoint and leaves the status
    Queued; if the planner was not queued it has enqueued the agent, once;
    and asking again changes nothing, so the agent is not enqueued a second
    time. *)
Theorem getCurrentWaypoint_enters_queue_once
        (s : State) (a : AgentPtr) (q : QueuePtr) :
  reachable s ->
  agent (planner s) = Some a ->
  waitingQueue (planner s) = Some q ->
  hasReachedQueueEnd s = Ok (true, s) ->
  hasCompletedWaypoint s
  = Ok (negb (status_eqb (status (planner s)) Queued), s) /\
  exists wp s1,
    getCurrentWaypoint s = Ok (Some wp, s1) /\
    status (planner s1) = Queued /\
    (if status_eqb (status (planner s)) Queued
     then s1 = s
     else queuedAgents (queues (world s1) q)
          = queuedAgents (queues (world s) q) ++ [a]) /\
    getCurrentWaypoint s1 = Ok (Some wp, s1).
Proof.
  intros Hreach Hag Hwq Hreached.
  pose proof (reachable_wellFormed Hreach) as [W1 _ W3].
  assert (Hwithin : withinReach (world s) a q = true).
  { rewrite (hasReachedQueueEnd_run s Hag Hwq) in Hreached.
    apply Ok_pair_inj in Hreached. apply Hreached. }
  pose proof (hasCompletedWaypoint_run s Hag Hwq) as Hc.
  rewrite Hwithin, andb_true_r in Hc.
  assert (Hcompleted : hasCompletedWaypoint s
                       = Ok (negb (status_eqb (status (planner s)) Queued), s)).
  { rewrite Hc. f_equal. f_equal.
    destruct (currentWaypoint (planner s)) as [wp|], (status (planner s));
      cbn; try reflexivity.
    - specialize (W3 eq_refl). discriminate.
    - exfalso. apply W1; reflexivity. }
  split; [exact Hcompleted|].
  destruct (status_eqb (status (planner s)) Queued) eqn:Est; cbn [negb] in Hcompleted.
  - (* queued already *)
    assert (Hst : status (planner s) = Queued)
      by (destruct (status (planner s)); try discriminate; reflexivity).
    destruct (currentWaypoint (planner s)) as [wp|] eqn:Ewp;
      [|exfalso; apply (W1 Hst); reflexivity].
    pose proof (getCurrentWaypoint_not_completed Hcompleted) as Hget.
    rewrite Ewp in Hget.
    exists wp, s. repeat split; assumption.
  - (* the transition *)
    destruct (activateQueueingMode_run s Hag Hwq)
      as (name & s1 & Hact & Hst1 & Hq1 & _ & Hwp1 & _).
    destruct (activateQueueingMode_frame _ Hact) as [Hag1 Hwq1].
    rewrite Hag in Hag1. rewrite Hwq in Hwq1.
    pose proof (getNextWaypoint_within_reach s Hag Hwq Hwithin Hact) as Hnext.
    pose proof (getCurrentWaypoint_completed Hcompleted Hnext) as Hget.
    rewrite Hwp1 in Hget.
    eexists. exists s1. split; [exact Hget|]. split; [exact Hst1|].
    split; [rewrite Hq1; reflexivity|].
    assert (Hc1 : hasCompletedWaypoint s1 = Ok (false, s1)).
    { rewrite (hasCompletedWaypoint_run s1 Hag1 Hwq1), Hwp1, Hst1. reflexivity. }
    rewrite (getCurrentWaypoint_not_completed Hc1), Hwp1. reflexivity.
Qed.

Lemma getCurrentWaypoint_enters_queue_once_witness :
  hasCompletedWaypoint arrivingState = Ok (true, arrivingState) /\
  exists wp s1,
    getCurrentWaypoint arrivingState = Ok (Some wp, s1) /\
    status (planner s1) = Queued /\
    queuedAgents (queues (world s1) queueE) = [agentA] /\
    getCurrentWaypoint s1 = Ok (Some wp, s1).
Proof.
  assert (Hag : agent (planner arrivingState) = Some agentA)
    by (vm_compute; reflexivity).
  assert (Hwq : waitingQueue (planner arrivingState) = Some queueE)
    by (vm_compute; reflexivity).
  assert (Hreached : hasReachedQueueEnd arrivingState = Ok (true, arrivingState))
    by (vm_compute; reflexivity).
  destruct (@getCurrentWaypoint_enters_queue_once arrivingState agentA queueE
              (after_reachable _ _) Hag Hwq Hreached)
    as (Hc & wp & s1 & Hget & Hst & Hq & Hagain).
  split; [exact Hc|].
  exists wp, s1. split; [exact Hget|]. split; [exact Hst|].
  split; [exact Hq|exact Hagain].
Defined.

(** C1, as claimed, fails for hasCompletedWaypoint: with the agent within
    reach of the queue's end it answers true and the status stays
    Approaching; nobody has been enqueued. *)
Lemma hasCompletedWaypoint_does_not_enter_queue :
  reachable arrivingState /\
  agent (planner arrivingState) = Some agentA /\
  waitingQueue (planner arrivingState) = Some queueE /\
  hasReachedQueueEnd arrivingState = Ok (true, arrivingState) /\
  exists s',
    hasCompletedWaypoint arrivingState = Ok (true, s') /\
    status (planner s') = Approaching /\
    queuedAgents (queues (world s') queueE) = [].
Proof.
  split; [apply after_reachable|].
  repeat (split; [vm_compute; reflexivity|]).
  eexists. split; [vm_compute; reflexivity|].
  split; vm_compute; reflexivity.
Qed.

(** ** Dissolving an agent cluster *)

Section DissolveProperties.

Variable RNGState : Type.
Variable uniform_real : float -> float -> RNGState -> float * RNGState.

(** What the loop of addWaypoint calls does to the agent at [a]. *)
Lemma addWaypoints_heap (a : AgentPtr) (wps : list (option WaypointPtr)) :
  forall sc : Scene RNGState,
    let sc' := fold_left (fun sc wp => onAgent a (fun ag => agentAddWaypoint ag wp) sc)
                         wps sc in
    heap sc' a = fold_left agentAddWaypoint wps (heap sc a) /\
    (forall p, p <> a -> heap sc' p = heap sc p) /\
    nextFree sc' = nextFree sc /\
    sceneAgents sc' = sceneAgents sc /\
    staticid sc' = staticid sc.
Proof.
  induction wps as [|wp wps IH]; intros sc; cbn.
  - repeat split; reflexivity.
  - destruct (IH (onAgent a (fun ag => agentAddWaypoint ag wp) sc))
      as (Ha & Hother & Hnext & Hscene & Hid).
    cbn in *. unfold heapUpdate in *. rewrite Nat.eqb_refl in Ha.
    repeat split; try assumption.
    intros p Hp. rewrite (Hother p Hp).
    apply Nat.eqb_neq in Hp. rewrite Hp. reflexivity.
Qed.

Lemma addWaypoints_agent (wps : list (option WaypointPtr)) :
  forall ag : Agent,
    let ag' := fold_left agentAddWaypoint wps ag in
    destinations ag' = destinations ag ++ wps /\
    agentType ag' = agentType ag /\
    agentPosition ag' = agentPosition ag /\
    agentId ag' = agentId ag.
Proof.
  induction wps as [|wp wps IH]; intros ag; cbn.
  - rewrite app_nil_r. repeat split; reflexivity.
  - destruct (IH (agentAddWaypoint ag wp)) as (Hd & Ht & Hp & Hi).
    cbn in *. rewrite Hd, <- app_assoc. repeat split; assumption.
Qed.

(** The second half of a round: position, type, waypoints, registration. *)
Lemma dissolveStep_placing (c : AgentCluster) (a : AgentPtr) (x y : float)
      (sc0 : Scene RNGState) :
  let sc' :=
    sceneAddAgent a
      (fold_left (fun sc wp => onAgent a (fun ag => agentAddWaypoint ag wp) sc)
         (waypoints c)
         (onAgent a (agentSetType (clusterAgentType c))
                  (onAgent a (agentSetPosition x y) sc0))) in
  nextFree sc' = nextFree sc0 /\
  staticid sc' = staticid sc0 /\
  sceneAgents sc' = sceneAgents sc0 ++ [a] /\
  (forall p, p <> a -> heap sc' p = heap sc0 p) /\
  agentId (heap sc' a) = agentId (heap sc0 a) /\
  agentType (heap sc' a) = clusterAgentType c /\
  destinations (heap sc' a) = destinations (heap sc0 a) ++ waypoints c /\
  agentPosition (heap sc' a) = mkTvector x y.
Proof.
  set (sc1 := onAgent a (agentSetType (clusterAgentType c))
                      (onAgent a (agentSetPosition x y) sc0)).
  pose proof (addWaypoints_heap a (waypoints c) sc1) as Hheap.
  pose proof (addWaypoints_agent (waypoints c) (heap sc1 a)) as Hagent.
  cbv zeta in *.
  destruct Hheap as (Ha & Hother & Hnext & Hscene & Hid).
  destruct Hagent as (Hd & Ht & Hp & Hi).
  cbn [sceneAddAgent heap nextFree staticid sceneAgents].
  rewrite Hnext, Hscene, Hid, Ha, Hd, Ht, Hp, Hi.
  subst sc1. cbn. unfold heapUpdate. rewrite !Nat.eqb_refl. cbn.
  repeat split; try reflexivity.
  intros p Hne. rewrite (Hother p Hne). cbn. unfold heapUpdate.
  apply Nat.eqb_neq in Hne. rewrite Hne. reflexivity.
Qed.

Lemma draw_frame (lo hi : float) (sc : Scene RNGState) :
  let sc' := snd (draw uniform_real lo hi sc) in
  heap sc' = heap sc /\ nextFree sc' = nextFree sc /\
  staticid sc' = staticid sc /\ sceneAgents sc' = sceneAgents sc.
Proof.
  unfold draw. destruct (uniform_real lo hi (rng sc)); cbn.
  repeat split; reflexivity.
Qed.

(** One round of the loop: a fresh agent with the cluster's type and
    waypoints, placed at the cluster's position when nothing is drawn. *)
Lemma dissolveStep_spec (c : AgentCluster) (sc : Scene RNGState) :
  let a := fst (dissolveStep uniform_real c sc) in
  let sc' := snd (dissolveStep uniform_real c sc) in
  a = nextFree sc /\
  nextFree sc' = S (nextFree sc) /\
  staticid sc' = (staticid sc + 1)%Z /\
  sceneAgents sc' = sceneAgents sc ++ [a] /\
  (forall p, p <> a -> heap sc' p = heap sc p) /\
  agentId (heap sc' a) = staticid sc /\
  agentType (heap sc' a) = clusterAgentType c /\
  destinations (heap sc' a) = waypoints c /\
  ((width (distribution c) =? 0)%float = true ->
   (height (distribution c) =? 0)%float = true ->
   agentPosition (heap sc' a) = clusterPosition c).
Proof.
  unfold dissolveStep, newAgent.
  set (sc0 := mkScene _ _ _ _ _).
  assert (Hfresh : heap sc0 (nextFree sc)
                   = mkAgent (staticid sc) (mkTvector 0 0) 0 [] [])
    by (subst sc0; cbn; unfold heapUpdate; rewrite Nat.eqb_refl; reflexivity).
  assert (Hold : forall p, p <> nextFree sc -> heap sc0 p = heap sc p).
  { intros p Hne. subst sc0. cbn. unfold heapUpdate.
    apply Nat.eqb_neq in Hne. rewrite Hne. reflexivity. }
  assert (Hrest : nextFree sc0 = S (nextFree sc) /\
                  staticid sc0 = (staticid sc + 1)%Z /\
                  sceneAgents sc0 = sceneAgents sc) by (subst sc0; cbn; auto).
  clearbody sc0. destruct Hrest as (Hnext & Hid & Hscene).
  (* the two draws leave everything but the engine alone *)
  destruct (width (distribution c) =? 0)%float eqn:Ew; cbn [negb];
    [|pose proof (draw_frame (- width (distribution c) / 2)
                             (width (distribution c) / 2) sc0) as Hdx;
      destruct (draw uniform_real _ _ sc0) as [dx sc1]; cbn [snd] in Hdx;
      destruct Hdx as (Hh1 & Hn1 & Hi1 & Hs1);
      rewrite <- Hh1 in Hfresh, Hold; rewrite <- Hn1 in Hnext;
      rewrite <- Hi1 in Hid; rewrite <- Hs1 in Hscene;
      clear Hh1 Hn1 Hi1 Hs1; clear sc0; rename sc1 into sc0].
  all: destruct (height (distribution c) =? 0)%float eqn:Eh; cbn [negb];
    [|pose proof (draw_frame (- height (distribution c) / 2)
                             (height (distribution c) / 2) sc0) as Hdy;
      destruct (draw uniform_real _ _ sc0) as [dy sc1]; cbn [snd] in Hdy;
      destruct Hdy as (Hh1 & Hn1 & Hi1 & Hs1);
      rewrite <- Hh1 in Hfresh, Hold; rewrite <- Hn1 in Hnext;
      rewrite <- Hi1 in Hid; rewrite <- Hs1 in Hscene;
      clear Hh1 Hn1 Hi1 Hs1; clear sc0; rename sc1 into sc0].
  all: cbv beta iota zeta; cbn [fst snd].
  all: match goal with
       | |- context [agentSetPosition ?x ?y] =>
           pose proof (dissolveStep_placing c (nextFree sc) x y sc0) as Hplace
       end.
  all: cbv zeta in Hplace.
  all: destruct Hplace as (P1 & P2 & P3 & P4 & P5 & P6 & P7 & P8).
  all: rewrite P1, P2, P3, P5, P6, P7, P8, Hfresh, Hnext, Hid, Hscene.
  all: repeat split; try reflexivity; try discriminate.
  all: try (intros p Hne; rewrite (P4 p Hne); apply Hold; exact Hne).
  all: intros _ _; destruct (clusterPosition c); reflexivity.
Qed.

Lemma dissolveLoop_spec (c : AgentCluster) (todo : nat) :
  forall (agentsOut : list AgentPtr) (sc : Scene RNGState),
    let out := fst (dissolveLoop uniform_real todo c agentsOut sc) in
    let sc' := snd (dissolveLoop uniform_real todo c agentsOut sc) in
    out = agentsOut ++ seq (nextFree sc) todo /\
    nextFree sc' = nextFree sc + todo /\
    sceneAgents sc' = sceneAgents sc ++ seq (nextFree sc) todo /\
    (forall p, p < nextFree sc -> heap sc' p = heap sc p) /\
    forall p, nextFree sc <= p < nextFree sc + todo ->
      agentType (heap sc' p) = clusterAgentType c /\
      destinations (heap sc' p) = waypoints c /\
      ((width (distribution c) =? 0)%float = true ->
       (height (distribution c) =? 0)%float = true ->
       agentPosition (heap sc' p) = clusterPosition c).
Proof.
  induction todo as [|todo IH]; intros agentsOut sc; cbn [dissolveLoop].
  - cbn. rewrite !app_nil_r, Nat.add_0_r.
    repeat split; try reflexivity; lia.
  - pose proof (dissolveStep_spec c sc) as Hstep.
    destruct (dissolveStep uniform_real c sc) as [a sc1]. cbn [fst snd] in Hstep.
    destruct Hstep as (Ha & Hnext & _ & Hscene & Hother & _ & Ht & Hd & Hp).
    specialize (IH (agentsOut ++ [a]) sc1).
    destruct (dissolveLoop uniform_real todo c (agentsOut ++ [a]) sc1) as [out sc'].
    cbn [fst snd] in *.
    destruct IH as (Hout & Hnext' & Hscene' & Hold & Hnew).
    rewrite Hnext in *. subst a.
    repeat split.
    + rewrite Hout, <- app_assoc. reflexivity.
    + lia.
    + rewrite Hscene', Hscene, <- app_assoc. reflexivity.
    + intros p Hlt. rewrite Hold by lia. apply Hother. lia.
    + destruct (Nat.eq_dec p (nextFree sc)) as [->|Hne].
      * rewrite Hold by lia. exact Ht.
      * apply Hnew. lia.
    + destruct (Nat.eq_dec p (nextFree sc)) as [->|Hne].
      * rewrite Hold by lia. exact Hd.
      * apply Hnew. lia.
    + destruct (Nat.eq_dec p (nextFree sc)) as [->|Hne].
      * rewrite Hold by lia. exact Hp.
      * apply Hnew. lia.
Qed.

(** C10: for a cluster with count n >= 0, dissolve returns a list of exactly
    n agents, all newly created (n distinct addresses handed out by this
    call); each of them has the cluster's agent type and the cluster's
    waypoints, all of them and in order, and when the width and the height of
    the distribution are both zero each of them stands exactly at the
    cluster's position. *)
Theorem dissolve_creates_count_agents (c : AgentCluster) (sc : Scene RNGState) :
  (0 <= count c)%Z ->
  let agentsOut := fst (dissolve uniform_real c sc) in
  let sc' := snd (dissolve uniform_real c sc) in
  Z.of_nat (List.length agentsOut) = count c /\
  NoDup agentsOut /\
  (forall p, In p agentsOut -> nextFree sc <= p < nextFree sc') /\
  forall p, In p agentsOut ->
    agentType (heap sc' p) = clusterAgentType c /\
    destinations (heap sc' p) = waypoints c /\
    ((width (distribution c) =? 0)%float = true ->
     (height (distribution c) =? 0)%float = true ->
     agentPosition (heap sc' p) = clusterPosition c).
Proof.
  intros Hcount. unfold dissolve.
  destruct (dissolveLoop_spec c (Z.to_nat (count c)) [] sc)
    as (Hout & Hnext & _ & _ & Hnew).
  cbn [app] in Hout. cbn zeta. rewrite Hout, Hnext.
  split; [rewrite length_seq; lia|].
  split; [apply seq_NoDup|].
  split.
  - intros p Hin. apply in_seq in Hin. lia.
  - intros p Hin. apply in_seq in Hin. apply Hnew. lia.
Qed.

End DissolveProperties.

Lemma dissolve_creates_count_agents_witness :
  let agentsOut := fst (dissolve scriptedUniform exampleCluster exampleScene) in
  let sc' := snd (dissolve scriptedUniform exampleCluster exampleScene) in
  agentsOut = [4; 5; 6] /\
  forall p, In p agentsOut ->
    agentType (heap sc' p) = 1%Z /\
    destinations (heap sc' p)
    = [Some (OtherWaypointPtr 5); Some (WaitingQueuePtr queueE)] /\
    agentPosition (heap sc' p) = mkTvector 2 3.
Proof.
  assert (Hcount : (0 <= count exampleCluster)%Z) by (vm_compute; discriminate).
  destruct (dissolve_creates_count_agents scriptedUniform exampleCluster
              exampleScene Hcount) as (_ & _ & _ & Hnew).
  split; [vm_compute; reflexivity|].
  intros p Hin. destruct (Hnew p Hin) as (Ht & Hd & Hp).
  split; [exact Ht|]. split; [exact Hd|].
  apply Hp; vm_compute; reflexivity.
Defined.

(** * More properties of the planner *)

(** ** Only the assigned queue is listened to *)

Lemma keeps_ret P A (a : A) : keeps P (ret a).
Proof. intros s v s' HP H. apply Ok_pair_inj in H. destruct H; subst. exact HP. Qed.

Lemma keeps_bind P A B (m : M A) (f : A -> M B) :
  keeps P m -> (forall a, keeps P (f a)) -> keeps P (bind m f).
Proof.
  intros Hm Hf s v s' HP H. apply bind_Ok in H.
  destruct H as (a & s1 & H1 & H2). eapply Hf; [|exact H2]. eapply Hm; eauto.
Qed.

Lemma keeps_reader P A (m : M A) :
  (forall s v s', m s = Ok (v, s') -> planner s' = planner s) -> keeps P m.
Proof. intros Hm s v s' HP H. rewrite (Hm _ _ _ H). exact HP. Qed.

Lemma keeps_modify P (f : Planner -> Planner) :
  (forall p, P p -> P (f p)) -> keeps P (modify f).
Proof.
  intros Hf s v s' HP H. unfold modify in H.
  apply Ok_pair_inj in H. destruct H; subst. cbn. apply Hf, HP.
Qed.

Lemma onlyCurrentQueue_frame (p p' : Planner) :
  connections p' = connections p -> waitingQueue p' = waitingQueue p ->
  onlyCurrentQueue p -> onlyCurrentQueue p'.
Proof. unfold onlyCurrentQueue. intros -> ->. auto. Qed.

Lemma onlyCurrentQueue_connect_agent (f : AgentPtr) (p : Planner) :
  onlyCurrentQueue p ->
  onlyCurrentQueue (set_connections (connections p ++ [ConnPositionChanged f]) p).
Proof.
  intros HP c q Hin Hq. cbn in *. apply in_app_or in Hin.
  destruct Hin as [Hin|[<-|[]]]; [eauto|discriminate].
Qed.

Lemma onlyCurrentQueue_filter (g : Connection -> bool) (p : Planner) :
  onlyCurrentQueue p ->
  onlyCurrentQueue (set_connections (filter g (connections p)) p).
Proof.
  intros HP c q Hin Hq. cbn in *. apply filter_In in Hin. destruct Hin; eauto.
Qed.

Lemma keeps_disconnect A (sender : option A) (c : A -> Connection) :
  keeps onlyCurrentQueue (disconnect sender c).
Proof.
  unfold disconnect. destruct sender; [|apply keeps_ret].
  apply keeps_modify. intros p. apply onlyCurrentQueue_filter.
Qed.

Ltac keeps_frame :=
  apply keeps_modify; intros [? ? ? ? ? ?];
  apply onlyCurrentQueue_frame; reflexivity.

Ltac keeps_read :=
  apply keeps_reader; intros [? ? ?] ? ? ?;
  unfold deref, theWorld, this, writeLog, modifyWorld, getAgentObj, getQueueObj,
    bind, ret in *;
  repeat match goal with
         | H : context [match ?x with _ => _ end] |- _ => destruct x
         end;
  ok_inv; try discriminate; reflexivity.

Create HintDb keeps discriminated.

Ltac keeps_auto :=
  repeat first
    [ apply keeps_ret
    | apply keeps_disconnect
    | solve [auto with keeps nocore]
    | apply keeps_bind; [|intros ?]
    | progress keeps_frame
    | progress keeps_read
    | match goal with
      | |- keeps _ (connect (ConnPositionChanged _)) =>
          apply keeps_modify; intros ?; apply onlyCurrentQueue_connect_agent
      | |- keeps _ (match ?x with _ => _ end) => destruct x
      | |- keeps _ (let (_, _) := ?x in _) => destruct x
      end ].

Lemma addPrivateSpace_keeps v : keeps onlyCurrentQueue (addPrivateSpace v).
Proof. unfold addPrivateSpace. keeps_auto. Qed.

Lemma createWaypointName_keeps : keeps onlyCurrentQueue createWaypointName.
Proof. unfold createWaypointName. keeps_auto. Qed.

Lemma hasReachedQueueEnd_keeps : keeps onlyCurrentQueue hasReachedQueueEnd.
Proof.
  apply keeps_reader. intros s v s' H.
  rewrite (hasReachedQueueEnd_pure _ H). reflexivity.
Qed.

Lemma hasCompletedWaypoint_keeps : keeps onlyCurrentQueue hasCompletedWaypoint.
Proof.
  apply keeps_reader. intros s v s' H.
  rewrite (hasCompletedWaypoint_pure _ H). reflexivity.
Qed.

Lemma setWaypointPosition_keeps v : keeps onlyCurrentQueue (setWaypointPosition v).
Proof. unfold setWaypointPosition. keeps_auto. Qed.

#[local] Hint Resolve addPrivateSpace_keeps createWaypointName_keeps
  hasReachedQueueEnd_keeps hasCompletedWaypoint_keeps setWaypointPosition_keeps
  : keeps.

Lemma activateApproachingMode_keeps : keeps onlyCurrentQueue activateApproachingMode.
Proof. unfold activateApproachingMode. keeps_auto. Qed.

Lemma activateQueueingMode_keeps : keeps onlyCurrentQueue activateQueueingMode.
Proof. unfold activateQueueingMode, agentDisableForce. keeps_auto. Qed.

#[local] Hint Resolve activateApproachingMode_keeps activateQueueingMode_keeps
  : keeps.

Lemma onFollowedAgentPositionChanged_keeps x y :
  keeps onlyCurrentQueue (onFollowedAgentPositionChanged x y).
Proof. unfold onFollowedAgentPositionChanged. keeps_auto. Qed.

Lemma onAgentMayPassQueue_keeps id : keeps onlyCurrentQueue (onAgentMayPassQueue id).
Proof.
  unfold onAgentMayPassQueue, onFollowedAgentLeftQueue, hasId. keeps_auto.
Qed.

Lemma onQueueEndPositionChanged_keeps x y :
  keeps onlyCurrentQueue (onQueueEndPositionChanged x y).
Proof. unfold onQueueEndPositionChanged. keeps_auto. Qed.

Lemma reset_keeps : keeps onlyCurrentQueue reset.
Proof. unfold reset. keeps_auto. Qed.

Lemma setAgent_keeps a : keeps onlyCurrentQueue (setAgent a).
Proof. unfold setAgent. keeps_auto. Qed.

Lemma getNextWaypoint_keeps : keeps onlyCurrentQueue getNextWaypoint.
Proof. unfold getNextWaypoint. keeps_auto. Qed.

#[local] Hint Resolve getNextWaypoint_keeps : keeps.

Lemma getCurrentWaypoint_keeps : keeps onlyCurrentQueue getCurrentWaypoint.
Proof. unfold getCurrentWaypoint. keeps_auto. Qed.

Lemma hasCompletedDestination_keeps : keeps onlyCurrentQueue hasCompletedDestination.
Proof. unfold hasCompletedDestination. keeps_auto. Qed.

Lemma reset_no_queue_connection s v s' :
  onlyCurrentQueue (planner s) ->
  reset s = Ok (v, s') ->
  waitingQueue (planner s') = waitingQueue (planner s) /\
  forall c, In c (connections (planner s')) -> queueOf c = None.
Proof.
  destruct s as [[ag wq cw fa st cn] w d]. intros HP H.
  assert (Hkeep : forall g c, In c (filter g cn) -> queueOf c = None \/
                                                   exists q, wq = Some q /\ queueOf c = Some q).
  { intros g c Hin. apply filter_In in Hin. destruct Hin as [Hin _].
    destruct (queueOf c) as [q|] eqn:E; [right|left; reflexivity].
    exists q. split; [|reflexivity]. exact (HP c q Hin E). }
  unfold reset in H. unfold_prims. cbn in H.
  destruct wq as [q|].
  - assert (Hgone : forall l c,
               In c (filter (fun c' => negb (conn_eqb c' (ConnQueueEndPositionChanged q)))
                       (filter (fun c' => negb (conn_eqb c' (ConnAgentMayPass q))) l)) ->
               queueOf c <> Some q).
    { intros l c Hin Hq. apply filter_In in Hin. destruct Hin as [Hin H2].
      apply filter_In in Hin. destruct Hin as [_ H1].
      destruct c; cbn in *; try discriminate; injection Hq as ->;
        rewrite Nat.eqb_refl in *; discriminate. }
    destruct fa as [f|]; cbn in H; apply Ok_pair_inj in H; destruct H as [_ <-];
      cbn; (split; [reflexivity|]); intros c Hin.
    + pose proof (Hgone _ c Hin) as Hne.
      apply filter_In in Hin. destruct Hin as [Hin _].
      apply filter_In in Hin. destruct Hin as [Hin _].
      destruct (Hkeep _ c Hin) as [E|(q0 & Hq0 & E)]; [exact E|].
      injection Hq0 as <-. contradiction.
    + pose proof (Hgone _ c Hin) as Hne.
      apply filter_In in Hin. destruct Hin as [Hin _].
      apply filter_In in Hin. destruct Hin as [Hin _].
      destruct (queueOf c) as [q0|] eqn:E; [|reflexivity].
      pose proof (HP c q0 Hin E) as Hq0. cbn in Hq0. injection Hq0 as <-.
      contradiction.
  - destruct fa as [f|]; cbn in H; apply Ok_pair_inj in H; destruct H as [_ <-];
      cbn; (split; [reflexivity|]); intros c Hin.
    + destruct (Hkeep _ c Hin) as [E|(q0 & Hq0 & _)]; [exact E|discriminate].
    + destruct (queueOf c) as [q0|] eqn:E; [|reflexivity].
      pose proof (HP c q0 Hin E) as Hq0. discriminate.
Qed.

Lemma setWaitingQueue_keeps queueIn : keeps onlyCurrentQueue (setWaitingQueue queueIn).
Proof.
  intros s v s' HP H. unfold setWaitingQueue in H.
  apply bind_Ok in H. destruct H as ([] & s1 & Hreset & H).
  destruct (reset_no_queue_connection s HP Hreset) as [_ Hnone].
  destruct s1 as [[ag wq cw fa st cn] w d]. cbn in Hnone.
  unfold_prims. cbn in H.
  destruct queueIn as [q|]; cbn in H; apply Ok_pair_inj in H; destruct H as [_ <-];
    intros c q0 Hin Hq0; cbn in *.
  - rewrite <- app_assoc in Hin. apply in_app_or in Hin.
    destruct Hin as [Hin|[<-|[<-|[]]]].
    + rewrite (Hnone c Hin) in Hq0. discriminate.
    + cbn in Hq0. exact Hq0.
    + cbn in Hq0. exact Hq0.
  - rewrite (Hnone c Hin) in Hq0. discriminate.
Qed.

Lemma setDestination_keeps waypointIn :
  keeps onlyCurrentQueue (setDestination waypointIn).
Proof.
  unfold setDestination. destruct (castToWaitingQueue waypointIn).
  - apply setWaitingQueue_keeps.
  - keeps_auto.
Qed.

Lemma slot_keeps sig : keeps onlyCurrentQueue (slot sig).
Proof.
  destruct sig; cbn.
  - apply onAgentMayPassQueue_keeps.
  - apply onQueueEndPositionChanged_keeps.
  - apply onFollowedAgentPositionChanged_keeps.
Qed.

Lemma deliver_keeps n sig : keeps onlyCurrentQueue (deliver n sig).
Proof.
  induction n as [|n IH]; cbn [deliver].
  - apply keeps_ret.
  - apply keeps_bind; [keeps_read|]. intros p.
    destruct (isConnected (connectionOf sig) p); [|apply keeps_ret].
    apply keeps_bind; [apply slot_keeps|]. intros _. exact IH.
Qed.

Lemma emit_keeps sig : keeps onlyCurrentQueue (emit sig).
Proof.
  unfold emit. apply keeps_bind; [keeps_read|]. intros p. apply deliver_keeps.
Qed.

Lemma exec_onlyCurrentQueue c s s' :
  onlyCurrentQueue (planner s) -> exec c s = Ok s' ->
  onlyCurrentQueue (planner s').
Proof.
  intros HP H. destruct c; unfold exec in H;
    try (apply discard_Ok in H; destruct H as [v H]).
  - eapply reset_keeps; eauto.
  - eapply setAgent_keeps; eauto.
  - eapply setDestination_keeps; eauto.
  - eapply setWaitingQueue_keeps; eauto.
  - eapply hasReachedQueueEnd_keeps; eauto.
  - eapply getCurrentWaypoint_keeps; eauto.
  - eapply getNextWaypoint_keeps; eauto.
  - eapply hasCompletedWaypoint_keeps; eauto.
  - eapply hasCompletedDestination_keeps; eauto.
  - eapply emit_keeps; eauto.
  - eapply slot_keeps; eauto.
  - injection H as <-. exact HP.
Qed.

Lemma conn_eqb_eq a b : conn_eqb a b = true -> a = b.
Proof.
  destruct a, b; cbn; try discriminate; intros H;
    apply Nat.eqb_eq in H; subst; reflexivity.
Qed.

(** X1: in every state a planner can reach, each connection to a queue's
    signal is a connection to the queue that is assigned: with no queue
    assigned there is none, and a signal of any other queue is not
    delivered, whatever it carries. *)
Theorem reachable_listens_to_assigned_queue_only (s : State) :
  reachable s ->
  onlyCurrentQueue (planner s) /\
  forall q sigs,
    waitingQueue (planner s) <> Some q ->
    Forall (sentByQueue q) sigs ->
    emitAll sigs s = Ok (tt, s).
Proof.
  intros Hreach.
  assert (HP : onlyCurrentQueue (planner s)).
  { induction Hreach as [w|c s s' _ IH Hstep].
    - intros c q [].
    - eapply exec_onlyCurrentQueue; eauto. }
  split; [exact HP|].
  intros q sigs Hq Hsigs. apply emitAll_not_connected.
  eapply Forall_impl; [|exact Hsigs].
  intros sig Hsig. unfold isConnected.
  destruct (existsb _ _) eqn:E; [exfalso|reflexivity].
  apply existsb_exists in E. destruct E as (c & Hin & Hc).
  apply conn_eqb_eq in Hc. subst c.
  apply Hq. apply (HP _ q Hin).
  destruct sig; cbn in *; subst; try reflexivity; contradiction.
Qed.

Lemma reachable_listens_to_assigned_queue_only_witness :
  emitAll [agentMayPass queueE 7; queueEndPositionChanged queueE 0 1]
          queuedBehindF
  = Ok (tt, queuedBehindF).
Proof.
  apply (proj2 (@reachable_listens_to_assigned_queue_only queuedBehindF
                  (after_reachable _ _)) queueE).
  - vm_compute. discriminate.
  - repeat constructor.
Defined.

(** ** Assigning another queue *)

(** X2: setDestination with a waiting queue, for a planner that has another
    queue: the new queue is recorded with status Approaching, waypoint and
    followed agent are dropped, the planner is connected to the two signals of
    the new queue, and nothing the old queue or the agent followed so far
    emits afterwards reaches the planner. *)
Theorem setDestination_reassignment_disconnects (s : State) (q q' : QueuePtr) :
  waitingQueue (planner s) = Some q ->
  q' <> q ->
  exists s',
    setDestination (Some (WaitingQueuePtr q')) s = Ok (tt, s') /\
    waitingQueue (planner s') = Some q' /\
    status (planner s') = Approaching /\
    currentWaypoint (planner s') = None /\
    followedAgent (planner s') = None /\
    agent (planner s') = agent (planner s) /\
    world s' = world s /\
    isConnected (ConnAgentMayPass q') (planner s') = true /\
    isConnected (ConnQueueEndPositionChanged q') (planner s') = true /\
    forall sigs,
      Forall (fun sig =>
                sentByQueue q sig \/
                exists f, followedAgent (planner s) = Some f /\ sentByAgent f sig)
             sigs ->
      emitAll sigs s' = Ok (tt, s').
Proof.
  destruct s as [[ag wq cw fa st cn] w d]. cbn. intros -> Hne.
  assert (Hqq : Nat.eqb q q' = false) by (apply Nat.eqb_neq; congruence).
  destruct fa as [f|]; eexists;
    (split; [unfold setDestination, setWaitingQueue, reset; unfold_prims; cbn;
             reflexivity|]); cbn.
  all: repeat (split; [reflexivity|]).
  all: unfold isConnected; cbn.
  all: split; [rewrite !existsb_app; cbn; rewrite Nat.eqb_refl;
               repeat rewrite ?orb_true_r, ?orb_true_l; reflexivity|].
  all: split; [rewrite !existsb_app; cbn; rewrite Nat.eqb_refl;
               repeat rewrite ?orb_true_r, ?orb_true_l; reflexivity|].
  all: intros sigs Hsigs; apply emitAll_not_connected.
  all: eapply Forall_impl; [|exact Hsigs].
  all: intros sig [Hsig|(f' & Hf' & Hsig)]; try discriminate Hf'.
  all: destruct sig as [q0 i|q0 x y|a x y]; cbn in Hsig; try contradiction;
       subst; unfold isConnected; cbn; rewrite !existsb_app; cbn;
       rewrite ?Hqq, ?orb_false_r.
  - apply not_connected_filter, disconnected_after_filter.
  - apply disconnected_after_filter.
  - injection Hf' as <-.
    apply not_connected_filter, not_connected_filter, disconnected_after_filter.
  - apply not_connected_filter, disconnected_after_filter.
  - apply disconnected_after_filter.
Qed.

Lemma setDestination_reassignment_disconnects_witness :
  exists s',
    setDestination (Some (WaitingQueuePtr queueE)) queuedBehindF = Ok (tt, s') /\
    status (planner s') = Approaching /\
    emitAll [agentMayPass queueN 7; positionChanged agentF 50 50;
             queueEndPositionChanged queueN 1 1] s'
    = Ok (tt, s').
Proof.
  assert (Hq : waitingQueue (planner queuedBehindF) = Some queueN)
    by (vm_compute; reflexivity).
  assert (Hne : queueE <> queueN) by (vm_compute; discriminate).
  destruct (@setDestination_reassignment_disconnects queuedBehindF queueN queueE
              Hq Hne)
    as (s' & Hrun & _ & Hst & _ & _ & _ & _ & _ & _ & Hquiet).
  exists s'. split; [exact Hrun|]. split; [exact Hst|].
  apply Hquiet.
  apply Forall_cons; [left; reflexivity|].
  apply Forall_cons;
    [right; exists agentF; split; [vm_compute; reflexivity|reflexivity]|].
  apply Forall_cons; [left; reflexivity|apply Forall_nil].
Defined.

(** ** Walking up to the queue *)

Lemma activateApproachingMode_run (s : State) (a : AgentPtr) (q : QueuePtr) :
  agent (planner s) = Some a ->
  waitingQueue (planner s) = Some q ->
  activateApproachingMode s
  = Ok (tt, mkState
              (set_currentWaypoint
                 (Some (mkQueueingWaypoint (helperName (world s) a q)
                                           (queueEndPosition (queues (world s) q))))
                 (set_status Approaching (planner s)))
              (world s)
              (diagnostics s ++ [modeLog "Approaching" (world s) a])).
Proof.
  destruct s as [[ag wq cw fa st cn] w d]. cbn. intros -> ->. reflexivity.
Qed.

Lemma getNextWaypoint_out_of_reach (s s' : State) (a : AgentPtr) (q : QueuePtr) :
  agent (planner s) = Some a ->
  waitingQueue (planner s) = Some q ->
  withinReach (world s) a q = false ->
  activateApproachingMode s = Ok (tt, s') ->
  getNextWaypoint s = Ok (currentWaypoint (planner s'), s').
Proof.
  intros Hag Hwq Hreach Hact. unfold getNextWaypoint.
  unfold bind at 1, this. rewrite Hag, Hwq.
  rewrite (bind_run _ (hasReachedQueueEnd_run s Hag Hwq)), Hreach.
  rewrite (bind_run _ Hact). reflexivity.
Qed.

(** X3: the first query of a planner whose agent is farther than 2.0 from the
    queue's end makes the helper waypoint: it is named
    QueueHelper_A<agent id>_Q<queue name> and lies at the queue's end position
    as it is; the status is Approaching, one debug diagnostic is written,
    nobody is enqueued and no object pointed to changes. While the agent stays
    out of reach, asking again returns the same waypoint and changes
    nothing. *)
Theorem getCurrentWaypoint_starts_approaching
        (s : State) (a : AgentPtr) (q : QueuePtr) :
  agent (planner s) = Some a ->
  waitingQueue (planner s) = Some q ->
  currentWaypoint (planner s) = None ->
  withinReach (world s) a q = false ->
  let wp := mkQueueingWaypoint (helperName (world s) a q)
                               (queueEndPosition (queues (world s) q)) in
  let s' := mkState (set_currentWaypoint (Some wp)
                       (set_status Approaching (planner s)))
                    (world s)
                    (diagnostics s ++ [modeLog "Approaching" (world s) a]) in
  getCurrentWaypoint s = Ok (Some wp, s') /\
  getCurrentWaypoint s' = Ok (Some wp, s').
Proof.
  intros Hag Hwq Hwp Hfar wp s'.
  pose proof (activateApproachingMode_run s Hag Hwq) as Hact.
  fold wp in Hact. fold s' in Hact.
  assert (Hc : hasCompletedWaypoint s = Ok (true, s))
    by (rewrite (hasCompletedWaypoint_run s Hag Hwq), Hwp; reflexivity).
  pose proof (getNextWaypoint_out_of_reach s Hag Hwq Hfar Hact) as Hnext.
  split.
  - exact (getCurrentWaypoint_completed Hc Hnext).
  - assert (Hag' : agent (planner s') = Some a) by exact Hag.
    assert (Hwq' : waitingQueue (planner s') = Some q) by exact Hwq.
    assert (Hc' : hasCompletedWaypoint s' = Ok (false, s')).
    { rewrite (hasCompletedWaypoint_run s' Hag' Hwq'). cbn.
      change (world s') with (world s). rewrite Hfar. reflexivity. }
    exact (getCurrentWaypoint_not_completed Hc').
Qed.

Lemma getCurrentWaypoint_starts_approaching_witness :
  exists s',
    getCurrentWaypoint
      (after [CallSetAgent (Some agentA); CallSetWaitingQueue (Some queueN)] farWorld)
    = Ok (Some (mkQueueingWaypoint "QueueHelper_A7_QN" (mkTvector 0 10)), s') /\
    status (planner s') = Approaching /\
    getCurrentWaypoint s'
    = Ok (Some (mkQueueingWaypoint "QueueHelper_A7_QN" (mkTvector 0 10)), s').
Proof.
  destruct (@getCurrentWaypoint_starts_approaching
              (after [CallSetAgent (Some agentA); CallSetWaitingQueue (Some queueN)]
                     farWorld) agentA queueN)
    as [H1 H2]; try (vm_compute; reflexivity).
  eexists. split; [exact H1|]. split; [reflexivity|exact H2].
Defined.

(** X4: while the planner is Approaching with a waypoint and its agent is
    out of reach of the queue's end, an end-position event with payload (x,y)
    moves the waypoint, in place, to (x,y) when nobody is queued and to (x,y)
    minus the private-space offset otherwise; nothing else changes, and the
    next query for the current waypoint returns the moved waypoint. *)
Theorem onQueueEndPositionChanged_moves_waypoint
        (s : State) (a : AgentPtr) (q : QueuePtr) (wp : QueueingWaypoint)
        (x y : float) :
  agent (planner s) = Some a ->
  waitingQueue (planner s) = Some q ->
  status (planner s) = Approaching ->
  currentWaypoint (planner s) = Some wp ->
  withinReach (world s) a q = false ->
  let pos := if Queue.isEmpty (queues (world s) q)
             then mkTvector x y
             else Tvec.sub (mkTvector x y)
                           (Tvec.fromPolar (queueDirection (queues (world s) q))
                                           0.7%float) in
  onQueueEndPositionChanged x y s = Ok (tt, movedTo pos wp s) /\
  getCurrentWaypoint (movedTo pos wp s)
  = Ok (Some (mkQueueingWaypoint (waypointName wp) pos), movedTo pos wp s).
Proof.
  intros Hag Hwq Hst Hwp Hfar pos. split.
  - unfold onQueueEndPositionChanged. unfold bind at 1, this.
    rewrite Hst. cbn [status_eqb negb].
    rewrite (bind_run _ (hasReachedQueueEnd_run s Hag Hwq)), Hfar, Hwp.
    destruct s as [[ag wq cw fa st cn] w d]. cbn in *. subst.
    unfold addPrivateSpace, queueOffset, privateSpaceDistance, movedTo.
    unfold_prims. cbn.
    destruct (Queue.isEmpty (queues w q)); reflexivity.
  - assert (Hag' : agent (planner (movedTo pos wp s)) = Some a) by exact Hag.
    assert (Hwq' : waitingQueue (planner (movedTo pos wp s)) = Some q) by exact Hwq.
    assert (Hc : hasCompletedWaypoint (movedTo pos wp s)
                 = Ok (false, movedTo pos wp s)).
    { rewrite (hasCompletedWaypoint_run _ Hag' Hwq'). cbn.
      rewrite Hst, Hfar. reflexivity. }
    exact (getCurrentWaypoint_not_completed Hc).
Qed.

Lemma onQueueEndPositionChanged_moves_waypoint_witness :
  exists s0 s1,
    execAll [CallSetAgent (Some agentA); CallSetWaitingQueue (Some queueN);
             CallGetCurrentWaypoint] (initialState farWorld) = Ok s0 /\
    onQueueEndPositionChanged 0 20 s0 = Ok (tt, s1) /\
    getCurrentWaypoint s1
    = Ok (Some (mkQueueingWaypoint "QueueHelper_A7_QN"
                  (mkTvector (0 - 0.7 * 0) (20 - 0.7 * -1))%float), s1).
Proof.
  pose (s0 := after [CallSetAgent (Some agentA); CallSetWaitingQueue (Some queueN);
                     CallGetCurrentWaypoint] farWorld).
  destruct (@onQueueEndPositionChanged_moves_waypoint s0 agentA queueN
              (mkQueueingWaypoint "QueueHelper_A7_QN" (mkTvector 0 10)) 0 20)
    as [H1 H2]; try (vm_compute; reflexivity).
  exists s0. eexists. split; [vm_compute; reflexivity|].
  split; [exact H1|]. rewrite H2. vm_compute. reflexivity.
Defined.

(** X5: while the planner is Approaching and its agent is within 2.0 of the
    queue's end, an end-position event does what activateQueueingMode does,
    whatever its payload: the status becomes Queued and the agent is enqueued
    (once). *)
Theorem onQueueEndPositionChanged_enters_queue
        (s : State) (a : AgentPtr) (q : QueuePtr) (x y : float) :
  agent (planner s) = Some a ->
  waitingQueue (planner s) = Some q ->
  status (planner s) = Approaching ->
  withinReach (world s) a q = true ->
  exists s',
    onQueueEndPositionChanged x y s = Ok (tt, s') /\
    activateQueueingMode s = Ok (tt, s') /\
    status (planner s') = Queued /\
    queuedAgents (queues (world s') q)
    = queuedAgents (queues (world s) q) ++ [a] /\
    exists wp, currentWaypoint (planner s') = Some wp.
Proof.
  intros Hag Hwq Hst Hreach.
  destruct (activateQueueingMode_run s Hag Hwq)
    as (name & s' & Hact & Hst' & Hq' & _ & Hwp' & _).
  exists s'. split; [|split; [exact Hact|split; [exact Hst'|split]]].
  - unfold onQueueEndPositionChanged. unfold bind at 1, this.
    rewrite Hst. cbn [status_eqb negb].
    rewrite (bind_run _ (hasReachedQueueEnd_run s Hag Hwq)), Hreach.
    exact Hact.
  - rewrite Hq'. reflexivity.
  - eexists. exact Hwp'.
Qed.

Lemma onQueueEndPositionChanged_enters_queue_witness :
  exists s',
    onQueueEndPositionChanged 5 5 arrivingState = Ok (tt, s') /\
    status (planner s') = Queued /\
    queuedAgents (queues (world s') queueE) = [agentA].
Proof.
  destruct (@onQueueEndPositionChanged_enters_queue arrivingState agentA queueE 5 5)
    as (s' & Hrun & _ & Hst & Hq & _); try (vm_compute; reflexivity).
  exists s'. split; [exact Hrun|]. split; [exact Hst|exact Hq].
Defined.

(** X6: unless the status is Approaching, an end-position event changes
    nothing, whether the slot is called or the signal is emitted (however many
    connections there are): once queued, or allowed to pass, or without a
    queue, the planner does not follow the end of the queue. *)
Theorem queueEndPositionChanged_ignored_unless_approaching
        (s : State) (q : QueuePtr) (x y : float) :
  status (planner s) <> Approaching ->
  onQueueEndPositionChanged x y s = Ok (tt, s) /\
  emit (queueEndPositionChanged q x y) s = Ok (tt, s).
Proof.
  intros Hst.
  assert (Hslot : onQueueEndPositionChanged x y s = Ok (tt, s)).
  { unfold onQueueEndPositionChanged. unfold bind, this.
    destruct (status (planner s)); try reflexivity. contradiction. }
  split; [exact Hslot|].
  unfold emit. unfold bind at 1, this.
  generalize (List.length
                (filter (conn_eqb (connectionOf (queueEndPositionChanged q x y)))
                        (connections (planner s)))).
  intros n. induction n as [|n IH]; cbn [deliver]; [reflexivity|].
  unfold bind at 1, this.
  destruct (isConnected _ _); [|reflexivity].
  cbn [slot]. rewrite (bind_run _ Hslot). exact IH.
Qed.

Lemma queueEndPositionChanged_ignored_unless_approaching_witness :
  emit (queueEndPositionChanged queueN 1 1) queuedBehindF = Ok (tt, queuedBehindF).
Proof.
  apply (@queueEndPositionChanged_ignored_unless_approaching queuedBehindF queueN 1 1).
  vm_compute. discriminate.
Defined.

(** ** After the permission to pass *)

(** X7: in status MayPass the current waypoint counts as completed, so the
    next query for the current waypoint of a planner with agent and queue
    derives a new one and leaves MayPass: within 2.0 of the queue's end the
    agent is enqueued again and the status is Queued, otherwise the status is
    Approaching; hasCompletedDestination answers false from then on. *)
Theorem getCurrentWaypoint_leaves_MayPass
        (s : State) (a : AgentPtr) (q : QueuePtr) :
  agent (planner s) = Some a ->
  waitingQueue (planner s) = Some q ->
  status (planner s) = MayPass ->
  (exists s0, hasCompletedDestination s = Ok (true, s0)) /\
  exists wp s',
    getCurrentWaypoint s = Ok (Some wp, s') /\
    status (planner s')
    = (if withinReach (world s) a q then Queued else Approaching) /\
    (withinReach (world s) a q = true ->
     queuedAgents (queues (world s') q)
     = queuedAgents (queues (world s) q) ++ [a]) /\
    hasCompletedDestination s' = Ok (false, s').
Proof.
  intros Hag Hwq Hst. split.
  { unfold hasCompletedDestination. unfold bind, this. rewrite Hwq, Hst.
    eexists. reflexivity. }
  assert (Hc : hasCompletedWaypoint s = Ok (true, s)).
  { rewrite (hasCompletedWaypoint_run s Hag Hwq), Hst.
    destruct (currentWaypoint (planner s)); reflexivity. }
  destruct (withinReach (world s) a q) eqn:Hreach.
  - destruct (activateQueueingMode_run s Hag Hwq)
      as (name & s' & Hact & Hst' & Hq' & _ & Hwp' & _).
    destruct (activateQueueingMode_frame _ Hact) as [_ Hwq'].
    pose proof (getNextWaypoint_within_reach s Hag Hwq Hreach Hact) as Hnext.
    pose proof (getCurrentWaypoint_completed Hc Hnext) as Hget.
    rewrite Hwp' in Hget.
    eexists. exists s'. split; [exact Hget|]. split; [exact Hst'|].
    split; [intros _; rewrite Hq'; reflexivity|].
    unfold hasCompletedDestination. unfold bind, this.
    rewrite Hwq', Hwq, Hst'. reflexivity.
  - pose proof (activateApproachingMode_run s Hag Hwq) as Hact.
    pose proof (getNextWaypoint_out_of_reach s Hag Hwq Hreach Hact) as Hnext.
    pose proof (getCurrentWaypoint_completed Hc Hnext) as Hget.
    eexists. eexists. split; [exact Hget|]. split; [reflexivity|].
    split; [discriminate|].
    unfold hasCompletedDestination. unfold bind, this. cbn.
    rewrite Hwq. reflexivity.
Qed.

Lemma getCurrentWaypoint_leaves_MayPass_witness :
  exists wp s',
    getCurrentWaypoint mayPassState = Ok (Some wp, s') /\
    status (planner s') = Queued /\
    queuedAgents (queues (world s') queueN)
    = queuedAgents (queues (world mayPassState) queueN) ++ [agentA].
Proof.
  destruct (@getCurrentWaypoint_leaves_MayPass mayPassState agentA queueN)
    as (_ & wp & s' & Hget & Hst & Hq & _); try (vm_compute; reflexivity).
  exists wp, s'. split; [exact Hget|]. split.
  - rewrite Hst. vm_compute. reflexivity.
  - apply Hq. vm_compute. reflexivity.
Defined.

(** ** Null pointers *)

Lemma hasReachedQueueEnd_no_queue (s : State) :
  waitingQueue (planner s) = None -> hasReachedQueueEnd s = Ok (false, s).
Proof.
  intros H. unfold hasReachedQueueEnd. unfold bind, this. rewrite H. reflexivity.
Qed.

Lemma getNextWaypoint_no_queue (s : State) (a : AgentPtr) :
  agent (planner s) = Some a ->
  waitingQueue (planner s) = None ->
  getNextWaypoint s
  = Ok (None, logged s (mkLog WarnLog
          "Cannot determine queueing waypoint without waiting queues!" [])).
Proof.
  intros Hag Hwq. unfold getNextWaypoint. unfold bind at 1, this.
  rewrite Hag, Hwq. reflexivity.
Qed.

Lemma getNextWaypoint_no_agent (s : State) :
  agent (planner s) = None ->
  getNextWaypoint s
  = Ok (None, logged s (mkLog ErrorLog
          "Cannot determine queueing waypoint without agent!" [])).
Proof.
  intros Hag. unfold getNextWaypoint. unfold bind at 1, this.
  rewrite Hag. reflexivity.
Qed.

Lemma getNextWaypoint_safe (s : State) (a : AgentPtr) :
  agent (planner s) = Some a ->
  exists v s', getNextWaypoint s = Ok (v, s').
Proof.
  intros Hag. destruct (waitingQueue (planner s)) as [q|] eqn:Hwq.
  - destruct (withinReach (world s) a q) eqn:Hreach.
    + destruct (activateQueueingMode_run s Hag Hwq) as (name & s' & Hact & _).
      eexists. eexists.
      exact (getNextWaypoint_within_reach s Hag Hwq Hreach Hact).
    + eexists. eexists.
      exact (getNextWaypoint_out_of_reach s Hag Hwq Hreach
               (activateApproachingMode_run s Hag Hwq)).
  - eexists. eexists. exact (getNextWaypoint_no_queue s Hag Hwq).
Qed.

Lemma hasCompletedWaypoint_safe (s : State) (a : AgentPtr) :
  agent (planner s) = Some a ->
  exists b, hasCompletedWaypoint s = Ok (b, s).
Proof.
  intros Hag. destruct (waitingQueue (planner s)) as [q|] eqn:Hwq.
  - eexists. exact (hasCompletedWaypoint_run s Hag Hwq).
  - unfold hasCompletedWaypoint. unfold bind at 1, this.
    destruct (currentWaypoint (planner s)); [|eexists; reflexivity].
    destruct (status_eqb (status (planner s)) Approaching).
    + rewrite (bind_run _ (hasReachedQueueEnd_no_queue s Hwq)).
      eexists; reflexivity.
    + eexists; reflexivity.
Qed.

(** X8: with an agent bound, none of the queries of the planner dereferences a
    null pointer, in whatever state the planner is: hasReachedQueueEnd,
    hasCompletedWaypoint, hasCompletedDestination, getNextWaypoint and
    getCurrentWaypoint all return, and the first two change nothing. *)
Theorem queries_safe_with_agent (s : State) (a : AgentPtr) :
  agent (planner s) = Some a ->
  (exists b, hasReachedQueueEnd s = Ok (b, s)) /\
  (exists b, hasCompletedWaypoint s = Ok (b, s)) /\
  (exists b s', hasCompletedDestination s = Ok (b, s')) /\
  (exists v s', getNextWaypoint s = Ok (v, s')) /\
  (exists v s', getCurrentWaypoint s = Ok (v, s')).
Proof.
  intros Hag.
  destruct (hasCompletedWaypoint_safe s Hag) as [b Hc].
  destruct (getNextWaypoint_safe s Hag) as (v & s' & Hn).
  repeat split.
  - destruct (waitingQueue (planner s)) as [q|] eqn:Hwq.
    + eexists. exact (hasReachedQueueEnd_run s Hag Hwq).
    + eexists. exact (hasReachedQueueEnd_no_queue s Hwq).
  - exists b. exact Hc.
  - unfold hasCompletedDestination. unfold bind, this.
    destruct (waitingQueue (planner s)); eexists; eexists; reflexivity.
  - exists v, s'. exact Hn.
  - unfold getCurrentWaypoint. rewrite (bind_run _ Hc).
    destruct b.
    + rewrite (bind_run _ (bind_run _ Hn)). eexists. eexists. reflexivity.
    + eexists. eexists. reflexivity.
Qed.

Lemma queries_safe_with_agent_witness :
  (exists b, hasCompletedWaypoint arrivingState = Ok (b, arrivingState)) /\
  (exists v s', getCurrentWaypoint arrivingState = Ok (v, s')).
Proof.
  destruct (@queries_safe_with_agent arrivingState agentA) as (_ & H2 & _ & _ & H5).
  - vm_compute. reflexivity.
  - split; assumption.
Defined.

(** X9: hasReachedQueueEnd reads the agent's position without a null check.
    For a planner that has a queue but no agent it dereferences the null
    pointer; so does the slot for end-position events while the status is
    Approaching, and so do hasCompletedWaypoint and getCurrentWaypoint while
    the status is Approaching and there is a waypoint. *)
Theorem hasReachedQueueEnd_without_agent_crashes (s : State) (q : QueuePtr) :
  agent (planner s) = None ->
  waitingQueue (planner s) = Some q ->
  hasReachedQueueEnd s = Crash /\
  (status (planner s) = Approaching ->
   (forall x y, onQueueEndPositionChanged x y s = Crash) /\
   (currentWaypoint (planner s) <> None ->
    hasCompletedWaypoint s = Crash /\ getCurrentWaypoint s = Crash)).
Proof.
  intros Hag Hwq.
  assert (Hcrash : hasReachedQueueEnd s = Crash).
  { unfold hasReachedQueueEnd. unfold bind at 1, this. rewrite Hwq.
    unfold bind, getQueueObj, theWorld, ret, deref, this. rewrite Hag. reflexivity. }
  split; [exact Hcrash|]. intros Hst. split.
  - intros x y. unfold onQueueEndPositionChanged. unfold bind at 1, this.
    rewrite Hst. cbn [status_eqb negb]. unfold bind at 1. rewrite Hcrash.
    reflexivity.
  - intros Hwp.
    assert (Hc : hasCompletedWaypoint s = Crash).
    { unfold hasCompletedWaypoint. unfold bind at 1, this.
      destruct (currentWaypoint (planner s)); [|contradiction].
      rewrite Hst. cbn [status_eqb]. unfold bind at 1. rewrite Hcrash.
      reflexivity. }
    split; [exact Hc|].
    unfold getCurrentWaypoint. unfold bind at 1. rewrite Hc. reflexivity.
Qed.

Lemma hasReachedQueueEnd_without_agent_crashes_witness :
  execAll [CallSetWaitingQueue (Some queueE);
           CallEmit (queueEndPositionChanged queueE 0 9)]
          (initialState exampleWorld) = Crash /\
  onQueueEndPositionChanged 0 9
    (after [CallSetWaitingQueue (Some queueE)] exampleWorld) = Crash.
Proof.
  split; [vm_compute; reflexivity|].
  destruct (@hasReachedQueueEnd_without_agent_crashes
              (after [CallSetWaitingQueue (Some queueE)] exampleWorld) queueE)
    as [_ H]; [vm_compute; reflexivity|vm_compute; reflexivity|].
  apply H. vm_compute. reflexivity.
Defined.

(** ** Without agent, without queue *)

(** X10: when no waypoint can be determined, getNextWaypoint returns null and
    writes one diagnostic, an error without agent (checked first) and a
    warning without queue, and changes nothing else; getCurrentWaypoint, when
    the current waypoint counts as completed, then returns null as well and
    leaves the planner without waypoint. *)
Theorem getNextWaypoint_without_agent_or_queue (s : State) :
  agent (planner s) = None \/ waitingQueue (planner s) = None ->
  exists e,
    logLevel e = (match agent (planner s) with
                  | None => ErrorLog
                  | Some _ => WarnLog
                  end) /\
    getNextWaypoint s = Ok (None, logged s e) /\
    (hasCompletedWaypoint s = Ok (true, s) ->
     getCurrentWaypoint s
     = Ok (None, mkState (set_currentWaypoint None (planner s)) (world s)
                         (diagnostics s ++ [e]))).
Proof.
  intros Hmissing.
  assert (Hnext : exists e,
             logLevel e = (match agent (planner s) with
                           | None => ErrorLog
                           | Some _ => WarnLog
                           end) /\
             getNextWaypoint s = Ok (None, logged s e)).
  { destruct (agent (planner s)) as [a|] eqn:Hag.
    - destruct Hmissing as [H|Hwq]; [discriminate|].
      eexists. split; [|exact (getNextWaypoint_no_queue s Hag Hwq)]. reflexivity.
    - eexists. split; [|exact (getNextWaypoint_no_agent s Hag)]. reflexivity. }
  destruct Hnext as (e & Hlevel & Hnext).
  exists e. split; [exact Hlevel|]. split; [exact Hnext|].
  intros Hc. unfold getCurrentWaypoint.
  rewrite (bind_run _ Hc). cbv beta iota.
  rewrite (bind_run _ (bind_run _ Hnext)). reflexivity.
Qed.

Lemma getNextWaypoint_without_agent_or_queue_witness :
  exists e,
    logLevel e = ErrorLog /\
    getCurrentWaypoint (after [CallSetWaitingQueue (Some queueE)] exampleWorld)
    = Ok (None, logged (after [CallSetWaitingQueue (Some queueE)] exampleWorld) e).
Proof.
  destruct (@getNextWaypoint_without_agent_or_queue
              (after [CallSetWaitingQueue (Some queueE)] exampleWorld))
    as (e & Hlevel & _ & Hget).
  - left. vm_compute. reflexivity.
  - exists e. split; [exact Hlevel|].
    rewrite Hget; [reflexivity|]. vm_compute. reflexivity.
Defined.

Lemma filter_fixed A (g : A -> bool) (l : list A) :
  (forall x, In x l -> g x = true) -> filter g l = l.
Proof.
  induction l as [|x l IH]; cbn; intros H; [reflexivity|].
  rewrite (H x (or_introl eq_refl)), IH; auto.
Qed.

Lemma disconnect_queue_twice (q : QueuePtr) (l : list Connection) :
  let gone c := fun c' => negb (conn_eqb c' c) in
  filter (gone (ConnQueueEndPositionChanged q))
    (filter (gone (ConnAgentMayPass q))
       (filter (gone (ConnQueueEndPositionChanged q))
          (filter (gone (ConnAgentMayPass q)) l)))
  = filter (gone (ConnQueueEndPositionChanged q))
      (filter (gone (ConnAgentMayPass q)) l).
Proof.
  cbv zeta.
  rewrite (filter_fixed (fun c' => negb (conn_eqb c' (ConnAgentMayPass q)))).
  - apply filter_fixed. intros c Hin. apply filter_In in Hin. apply Hin.
  - intros c Hin. apply filter_In in Hin. destruct Hin as [Hin _].
    apply filter_In in Hin. apply Hin.
Qed.

Ltac disconnected :=
  first [apply disconnected_after_filter
        |apply not_connected_filter; disconnected].

(** X11: reset always returns; afterwards the status is Unknown, there is no
    waypoint and no followed agent, and the planner is disconnected from the
    two signals of its queue and from the position signal of the agent it
    followed. The agent and the queue stay bound, no object pointed to
    changes, nothing is logged, and a second reset changes nothing. *)
Theorem reset_clears_and_keeps_queue (s : State) :
  exists s',
    reset s = Ok (tt, s') /\
    status (planner s') = Unknown /\
    currentWaypoint (planner s') = None /\
    followedAgent (planner s') = None /\
    agent (planner s') = agent (planner s) /\
    waitingQueue (planner s') = waitingQueue (planner s) /\
    world s' = world s /\
    diagnostics s' = diagnostics s /\
    (forall q, waitingQueue (planner s) = Some q ->
               isConnected (ConnAgentMayPass q) (planner s') = false /\
               isConnected (ConnQueueEndPositionChanged q) (planner s') = false) /\
    (forall f, followedAgent (planner s) = Some f ->
               isConnected (ConnPositionChanged f) (planner s') = false) /\
    reset s' = Ok (tt, s').
Proof.
  destruct s as [[ag wq cw fa st cn] w d].
  destruct fa as [f|], wq as [q|]; eexists;
    (split; [unfold reset; unfold_prims; cbn; reflexivity|]); cbn;
    repeat (split; [reflexivity|]); unfold isConnected; cbn.
  all: split;
    [intros q0 Hq0;
     first [discriminate
           |injection Hq0 as <-; split;
            [apply not_connected_filter, disconnected_after_filter
            |apply disconnected_after_filter]]|].
  all: split;
    [intros f0 Hf0;
     first [discriminate
           |injection Hf0 as <-; disconnected]|].
  all: unfold reset; unfold_prims; cbn; try reflexivity.
  all: rewrite disconnect_queue_twice; reflexivity.
Qed.

(** X12: setWaitingQueue with the null pointer takes the queue away: status
    Unknown, no waypoint, no followed agent. From then on
    hasCompletedWaypoint and hasCompletedDestination answer true (the latter
    with a warning) and getCurrentWaypoint returns null with one diagnostic;
    none of them changes the planner. *)
Theorem setWaitingQueue_null_clears (s : State) :
  exists s',
    setWaitingQueue None s = Ok (tt, s') /\
    waitingQueue (planner s') = None /\
    status (planner s') = Unknown /\
    currentWaypoint (planner s') = None /\
    followedAgent (planner s') = None /\
    hasCompletedWaypoint s' = Ok (true, s') /\
    (exists e, logLevel e = WarnLog /\
               hasCompletedDestination s' = Ok (true, logged s' e)) /\
    (exists e, getCurrentWaypoint s' = Ok (None, logged s' e)).
Proof.
  destruct s as [[ag wq cw fa st cn] w d].
  destruct fa as [f|], wq as [q|], ag as [a|]; eexists;
    (split; [unfold setWaitingQueue, reset; unfold_prims; cbn; reflexivity|]);
    cbn; repeat (split; [reflexivity|]).
  all: split; [eexists; split; [|reflexivity]; reflexivity|].
  all: eexists; reflexivity.
Qed.

(** X13: in every state a planner can reach, a waypoint is only there while a
    queue is assigned, and a planner in status Unknown has no waypoint. *)
Theorem reachable_waypoint_needs_queue (s : State) :
  reachable s ->
  (forall wp, currentWaypoint (planner s) = Some wp ->
              exists q, waitingQueue (planner s) = Some q) /\
  (status (planner s) = Unknown -> currentWaypoint (planner s) = None).
Proof.
  intros Hreach. destruct (reachable_wellFormed Hreach) as [_ Hq Hu].
  split; [|exact Hu].
  intros wp Hwp. destruct (waitingQueue (planner s)) as [q|].
  - exists q. reflexivity.
  - exfalso. apply Hq; [rewrite Hwp; discriminate|reflexivity].
Qed.

Lemma reachable_waypoint_needs_queue_witness :
  exists q, waitingQueue (planner queuedBehindF) = Some q.
Proof.
  destruct (@reachable_waypoint_needs_queue queuedBehindF (after_reachable _ _))
    as [H _].
  apply (H (mkQueueingWaypoint "QueueHelper_A7_QN" (mkTvector 3 (4 - 0.7 * -1)%float))).
  vm_compute. reflexivity.
Defined.

(** * More properties of the agent cluster *)

(** ** More on dissolving a cluster *)

Section DissolveFrame.

Variable RNGState : Type.
Variable uniform_real : float -> float -> RNGState -> float * RNGState.

Lemma addWaypoints_rng (a : AgentPtr) (wps : list (option WaypointPtr)) :
  forall sc : Scene RNGState,
    rng (fold_left (fun sc wp => onAgent a (fun ag => agentAddWaypoint ag wp) sc)
                   wps sc) = rng sc.
Proof.
  induction wps as [|wp wps IH]; intros sc; cbn; [reflexivity|].
  rewrite IH. reflexivity.
Qed.

Lemma dissolveStep_rng (c : AgentCluster) (sc : Scene RNGState) :
  (width (distribution c) =? 0)%float = true ->
  (height (distribution c) =? 0)%float = true ->
  rng (snd (dissolveStep uniform_real c sc)) = rng sc.
Proof.
  intros Hw Hh. unfold dissolveStep, newAgent. rewrite Hw, Hh. cbn.
  rewrite addWaypoints_rng. reflexivity.
Qed.

Lemma dissolveLoop_counters (c : AgentCluster) (todo : nat) :
  forall (agentsOut : list AgentPtr) (sc : Scene RNGState),
    let sc' := snd (dissolveLoop uniform_real todo c agentsOut sc) in
    staticid sc' = (staticid sc + Z.of_nat todo)%Z /\
    (forall i, i < todo ->
               agentId (heap sc' (nextFree sc + i)) = (staticid sc + Z.of_nat i)%Z) /\
    ((width (distribution c) =? 0)%float = true ->
     (height (distribution c) =? 0)%float = true ->
     rng sc' = rng sc).
Proof.
  induction todo as [|todo IH]; intros agentsOut sc; cbn [dissolveLoop].
  - cbn. repeat split; try lia; reflexivity.
  - pose proof (dissolveStep_spec uniform_real c sc) as Hstep.
    pose proof (dissolveStep_rng c sc) as Hrng.
    destruct (dissolveStep uniform_real c sc) as [a sc1]. cbn [fst snd] in *.
    destruct Hstep as (Ha & Hnext & Hid & _ & _ & Haid & _).
    pose proof (dissolveLoop_spec uniform_real c todo (agentsOut ++ [a]) sc1)
      as Hloop.
    specialize (IH (agentsOut ++ [a]) sc1).
    destruct (dissolveLoop uniform_real todo c (agentsOut ++ [a]) sc1) as [out sc'].
    cbn [fst snd] in *.
    destruct IH as (Hid' & Hids & Hrng').
    destruct Hloop as (_ & _ & _ & Hold & _).
    subst a. rewrite Hnext in *.
    repeat split.
    + lia.
    + intros i Hi. destruct i as [|i].
      * rewrite Nat.add_0_r, Hold by lia. rewrite Haid. lia.
      * replace (nextFree sc + S i) with (S (nextFree sc) + i) by lia.
        rewrite Hids by lia. lia.
    + intros Hw Hh. rewrite Hrng', Hrng; auto.
Qed.

(** X14: dissolve leaves the agents that existed before as they are and hands
    the new agents to the scene in the order in which it returns them. *)
Theorem dissolve_registers_new_agents (c : AgentCluster) (sc : Scene RNGState) :
  let agentsOut := fst (dissolve uniform_real c sc) in
  let sc' := snd (dissolve uniform_real c sc) in
  sceneAgents sc' = sceneAgents sc ++ agentsOut /\
  (forall p, p < nextFree sc -> heap sc' p = heap sc p) /\
  (forall p, p < nextFree sc -> ~ In p agentsOut).
Proof.
  unfold dissolve.
  destruct (dissolveLoop_spec uniform_real c (Z.to_nat (count c)) [] sc)
    as (Hout & _ & Hscene & Hold & _).
  cbn [app] in Hout. cbv zeta. rewrite Hout.
  split; [exact Hscene|]. split.
  - exact Hold.
  - intros p Hp Hin. apply in_seq in Hin. lia.
Qed.

(** X15: a cluster whose count is zero or negative dissolves into nothing:
    the list returned is empty and the scene, the heap and the random engine
    are as before. *)
Theorem dissolve_nothing_without_count (c : AgentCluster) (sc : Scene RNGState) :
  (count c <= 0)%Z ->
  dissolve uniform_real c sc = ([], sc).
Proof.
  intros Hcount. unfold dissolve.
  replace (Z.to_nat (count c)) with 0 by lia. reflexivity.
Qed.

(** X16: when the width and the height of the distribution are both zero
    (of either sign), dissolve draws no random number: the random engine is
    left in the state it was in. *)
Theorem dissolve_without_distribution_draws_nothing
        (c : AgentCluster) (sc : Scene RNGState) :
  (width (distribution c) =? 0)%float = true ->
  (height (distribution c) =? 0)%float = true ->
  rng (snd (dissolve uniform_real c sc)) = rng sc.
Proof.
  intros Hw Hh. unfold dissolve.
  destruct (dissolveLoop_counters c (Z.to_nat (count c)) [] sc) as (_ & _ & Hrng).
  apply Hrng; assumption.
Qed.

(** X17: dissolve does not use the cluster up. Dissolving it a second time
    creates as many agents again, all different from the first ones, which
    stay as they were; the scene holds both groups, the first one first. *)
Theorem dissolve_twice (c : AgentCluster) (sc : Scene RNGState) :
  let batch1 := fst (dissolve uniform_real c sc) in
  let sc1 := snd (dissolve uniform_real c sc) in
  let batch2 := fst (dissolve uniform_real c sc1) in
  let sc2 := snd (dissolve uniform_real c sc1) in
  List.length batch2 = List.length batch1 /\
  (forall p, In p batch1 -> ~ In p batch2) /\
  (forall p, In p batch1 -> heap sc2 p = heap sc1 p) /\
  sceneAgents sc2 = sceneAgents sc ++ batch1 ++ batch2.
Proof.
  unfold dissolve.
  destruct (dissolveLoop_spec uniform_real c (Z.to_nat (count c)) [] sc)
    as (Hout1 & Hnext1 & Hscene1 & _ & _).
  set (r1 := dissolveLoop uniform_real (Z.to_nat (count c)) c [] sc) in *.
  destruct (dissolveLoop_spec uniform_real c (Z.to_nat (count c)) [] (snd r1))
    as (Hout2 & _ & Hscene2 & Hold2 & _).
  cbn [app] in Hout1, Hout2. cbv zeta.
  rewrite Hout2, Hscene2, Hscene1, Hout1, Hnext1, !length_seq.
  split; [reflexivity|]. split; [|split].
  - intros p H1 H2. apply in_seq in H1. apply in_seq in H2. lia.
  - intros p H1. apply in_seq in H1. apply Hold2. lia.
  - rewrite app_assoc. reflexivity.
Qed.

End DissolveFrame.

Lemma dissolve_nothing_without_count_witness :
  dissolve scriptedUniform (Cluster.setCount (-2) exampleCluster) exampleScene
  = ([], exampleScene).
Proof.
  apply dissolve_nothing_without_count. vm_compute. discriminate.
Defined.

Lemma dissolve_without_distribution_draws_nothing_witness :
  rng (snd (dissolve scriptedUniform exampleCluster exampleScene))
  = [0.25; 0.5]%float.
Proof.
  rewrite dissolve_without_distribution_draws_nothing;
    vm_compute; reflexivity.
Defined.

(** ** A new cluster *)

Section FreshCluster.

Variable RNGState : Type.
Variable uniform_real : float -> float -> RNGState -> float * RNGState.

(** X18: a cluster as the constructor makes it (distribution 0 x 0, type 0,
    no waypoints, the next id from the counter) dissolves into exactly count
    agents that all stand exactly at the cluster's position, have type 0 and
    no destinations; no random number is drawn. *)
Theorem dissolve_new_cluster (lastID : Z) (xIn yIn : float) (countIn : Z)
        (sc : Scene RNGState) :
  (0 <= countIn)%Z ->
  let c := fst (Cluster.new lastID xIn yIn countIn) in
  let agentsOut := fst (dissolve uniform_real c sc) in
  let sc' := snd (dissolve uniform_real c sc) in
  Cluster.getId c = (lastID + 1)%Z /\
  snd (Cluster.new lastID xIn yIn countIn) = (lastID + 1)%Z /\
  Z.of_nat (List.length agentsOut) = countIn /\
  (forall p, In p agentsOut ->
             agentPosition (heap sc' p) = mkTvector xIn yIn /\
             agentType (heap sc' p) = 0%Z /\
             destinations (heap sc' p) = []) /\
  rng sc' = rng sc.
Proof.
  intros Hcount c agentsOut sc'.
  split; [reflexivity|]. split; [reflexivity|].
  subst agentsOut sc'. unfold dissolve.
  destruct (dissolveLoop_spec uniform_real c (Z.to_nat (count c)) [] sc)
    as (Hout & _ & _ & _ & Hnew).
  destruct (dissolveLoop_counters uniform_real c (Z.to_nat (count c)) [] sc)
    as (_ & _ & Hrng).
  cbn [app] in Hout. rewrite Hout, length_seq.
  split; [subst c; cbn; lia|]. split.
  - intros p Hin. apply in_seq in Hin.
    destruct (Hnew p) as (Ht & Hd & Hp); [lia|].
    split; [apply Hp; reflexivity|]. split; [exact Ht|exact Hd].
  - apply Hrng; reflexivity.
Qed.

End FreshCluster.

Lemma dissolve_new_cluster_witness :
  let c := fst (Cluster.new 0 1.5 2.5 2) in
  let agentsOut := fst (dissolve scriptedUniform c exampleScene) in
  let sc' := snd (dissolve scriptedUniform c exampleScene) in
  Z.of_nat (List.length agentsOut) = 2%Z /\
  forall p, In p agentsOut -> agentPosition (heap sc' p) = mkTvector 1.5 2.5.
Proof.
  assert (Hcount : (0 <= 2)%Z) by lia.
  destruct (dissolve_new_cluster scriptedUniform 0 1.5 2.5 exampleScene Hcount)
    as (_ & _ & Hlen & Hnew & _).
  split; [exact Hlen|].
  intros p Hin. apply (Hnew p Hin).
Defined.

(** ** The waypoints of a cluster *)


Lemma waypointPtr_eqb_eq (a b : option WaypointPtr) :
  waypointPtr_eqb a b = true <-> a = b.
Proof.
  destruct a as [[p|p]|], b as [[q|q]|]; cbn; split; intros H;
    try discriminate; try reflexivity;
    try (apply Nat.eqb_eq in H; subst; reflexivity);
    injection H as ->; apply Nat.eqb_refl.
Qed.

Lemma filter_none A (g : A -> bool) (l : list A) :
  (forall x, In x l -> g x = false) -> filter g l = [].
Proof.
  induction l as [|x l IH]; cbn; intros H; [reflexivity|].
  rewrite (H x (or_introl eq_refl)). apply IH. auto.
Qed.

(** X19: removeWaypoint takes every occurrence of the waypoint out of the
    cluster's list and keeps the others in their order; it answers true
    exactly when the waypoint was in the list, and when it answers false the
    cluster is unchanged. Removing a waypoint right after adding it, when it
    was not in the list before, gives the cluster back. *)
Theorem removeWaypoint_removes_all (c : AgentCluster) (wp : option WaypointPtr) :
  let r := Cluster.removeWaypoint wp c in
  waypoints (snd r) = filter (fun w => negb (waypointPtr_eqb w wp)) (waypoints c) /\
  ~ In wp (waypoints (snd r)) /\
  (fst r = true <-> In wp (waypoints c)) /\
  (fst r = false -> snd r = c) /\
  (~ In wp (waypoints c) ->
   Cluster.removeWaypoint wp (Cluster.addWaypoint wp c) = (true, c)).
Proof.
  assert (Hcount : forall l : list (option WaypointPtr),
             (Z.of_nat (List.length (filter (fun w => waypointPtr_eqb w wp) l)) >? 0)%Z
             = true <-> In wp l).
  { intros l. rewrite Z.gtb_gt. split.
    - intros H. destruct (filter _ l) as [|x l'] eqn:E; [cbn in H; lia|].
      assert (Hx : In x (filter (fun w => waypointPtr_eqb w wp) l))
        by (rewrite E; left; reflexivity).
      apply filter_In in Hx. destruct Hx as [Hx Heq].
      apply waypointPtr_eqb_eq in Heq. subst. exact Hx.
    - intros H.
      assert (Hx : In wp (filter (fun w => waypointPtr_eqb w wp) l)).
      { apply filter_In. split; [exact H|]. apply waypointPtr_eqb_eq. reflexivity. }
      destruct (filter _ l); [contradiction|]. cbn. lia. }
  assert (Hkeep : forall l : list (option WaypointPtr),
             ~ In wp l -> filter (fun w => negb (waypointPtr_eqb w wp)) l = l).
  { intros l Hnot. apply filter_fixed. intros x Hx.
    destruct (waypointPtr_eqb x wp) eqn:E; [|reflexivity].
    apply waypointPtr_eqb_eq in E. subst. contradiction. }
  unfold Cluster.removeWaypoint, Cluster.removeAll. cbv zeta.
  destruct (Z.of_nat _ >? 0)%Z eqn:E; cbn [fst snd Cluster.set_waypoints waypoints].
  - split; [reflexivity|]. split.
    { intros Hin. apply filter_In in Hin. destruct Hin as [_ Hne].
      rewrite (proj2 (waypointPtr_eqb_eq wp wp) eq_refl) in Hne. discriminate. }
    split; [split; [intros _; apply Hcount; exact E|reflexivity]|].
    split; [discriminate|].
    intros Hnot. apply Hcount in E. contradiction.
  - split; [reflexivity|]. split.
    { intros Hin. apply filter_In in Hin. destruct Hin as [_ Hne].
      rewrite (proj2 (waypointPtr_eqb_eq wp wp) eq_refl) in Hne. discriminate. }
    assert (Hnot : ~ In wp (waypoints c)).
    { intros Hin. apply Hcount in Hin. rewrite Hin in E. discriminate. }
    split; [split; [discriminate|intros Hin; contradiction]|].
    split.
    { intros _. rewrite (Hkeep _ Hnot). destruct c; reflexivity. }
    intros _. cbn [Cluster.addWaypoint Cluster.set_waypoints waypoints
                   clusterId clusterPosition count distribution clusterAgentType
                   shallCreateGroups].
    rewrite !filter_app. cbn [filter].
    rewrite (proj2 (waypointPtr_eqb_eq wp wp) eq_refl). cbn [negb].
    rewrite (Hkeep _ Hnot), app_nil_r.
    rewrite filter_none.
    2: { intros x Hx. destruct (waypointPtr_eqb x wp) eqn:Ex; [|reflexivity].
         apply waypointPtr_eqb_eq in Ex. subst. contradiction. }
    cbn. destruct c; reflexivity.
Qed.

Lemma removeWaypoint_removes_all_witness :
  Cluster.removeWaypoint (Some (OtherWaypointPtr 9))
    (Cluster.addWaypoint (Some (OtherWaypointPtr 9)) exampleCluster)
  = (true, exampleCluster).
Proof.
  apply (removeWaypoint_removes_all exampleCluster (Some (OtherWaypointPtr 9))).
  vm_compute. intros [H|[H|[]]]; discriminate.
Defined.

Section QueueOfCluster.

Variable RNGState : Type.
Variable uniform_real : float -> float -> RNGState -> float * RNGState.

(** X20: a waiting queue added to a cluster is a waypoint of the cluster like
    the others: removeWaitingQueue takes it out as removeWaypoint would, and
    every agent the cluster dissolves into gets it as the last of its
    destinations, which is a destination the queueing planner accepts:
    setDestination with it assigns the queue. *)
Theorem addWaitingQueue_reaches_planner
        (c : AgentCluster) (q : QueuePtr) (sc : Scene RNGState) (p : AgentPtr) :
  let c' := Cluster.addWaitingQueue (Some q) c in
  let sc' := snd (dissolve uniform_real c' sc) in
  In p (fst (dissolve uniform_real c' sc)) ->
  destinations (heap sc' p) = waypoints c ++ [Some (WaitingQueuePtr q)] /\
  (forall s, setDestination (last (destinations (heap sc' p)) None) s
             = setWaitingQueue (Some q) s) /\
  Cluster.removeWaitingQueue (Some q) c'
  = Cluster.removeWaypoint (Some (WaitingQueuePtr q)) c'.
Proof.
  intros c' sc' Hin. subst sc'. unfold dissolve in *.
  destruct (dissolveLoop_spec uniform_real c' (Z.to_nat (count c')) [] sc)
    as (Hout & _ & _ & _ & Hnew).
  cbn [app] in Hout. rewrite Hout in Hin. apply in_seq in Hin.
  destruct (Hnew p) as (_ & Hd & _); [lia|].
  rewrite Hd. subst c'. cbn [Cluster.addWaitingQueue Cluster.castToWaypoint
                             Cluster.set_waypoints waypoints].
  split; [reflexivity|]. split.
  - intros s. rewrite last_last. reflexivity.
  - unfold Cluster.removeWaitingQueue, Cluster.removeWaypoint,
      Cluster.castToWaypoint. cbv zeta.
    destruct (Cluster.removeAll _ _) as [l n]. destruct (n >? 0)%Z; reflexivity.
Qed.

End QueueOfCluster.

Lemma addWaitingQueue_reaches_planner_witness :
  let c' := Cluster.addWaitingQueue (Some queueN) exampleCluster in
  let sc' := snd (dissolve scriptedUniform c' exampleScene) in
  destinations (heap sc' 5)
  = [Some (OtherWaypointPtr 5); Some (WaitingQueuePtr queueE);
     Some (WaitingQueuePtr queueN)].
Proof.
  cbv zeta.
  destruct (addWaitingQueue_reaches_planner scriptedUniform exampleCluster
              queueN exampleScene 5) as (Hd & _ & _).
  - vm_compute. right. left. reflexivity.
  - rewrite Hd. reflexivity.
Defined.

(** X21: the setters of the position. setVisiblePosition and
    getVisiblePosition are inverse to each other and the change is announced
    once, with the new coordinates; setX followed by setY ends in the same
    cluster as setPosition with both coordinates, but announces the
    intermediate position first. *)
Theorem cluster_position_setters (c : AgentCluster) (x y : float) :
  Cluster.getVisiblePosition (fst (Cluster.setVisiblePosition (mkQPointF x y) c))
  = mkQPointF x y /\
  snd (Cluster.setVisiblePosition (mkQPointF x y) c)
  = [Cluster.positionChanged x y] /\
  fst (Cluster.setVisiblePosition (Cluster.getVisiblePosition c) c) = c /\
  fst (Cluster.setY y (fst (Cluster.setX x c)))
  = fst (Cluster.setPositionXY x y c) /\
  snd (Cluster.setX x c) ++ snd (Cluster.setY y (fst (Cluster.setX x c)))
  = [Cluster.positionChanged x (vy (Cluster.getPosition c));
     Cluster.positionChanged x y].
Proof.
  destruct c as [i [px py] n d t g wps]. cbn. repeat split; reflexivity.
Qed.
